(** * Mender client: update agent, state-script executor, partition manager

    A shallow embedding of the parts of the client that the specification
    makes promises about: the retry back-off of the API client, the
    state-script launcher (discovery, execution, retry-later records),
    the dual-rootfs partition manager with its bootloader environment,
    and the update-status request of the reporting client.

    Conventions.  Go's [time.Duration] is a signed 64-bit count of
    nanoseconds and Go's [int] is taken at its 64-bit width; both are
    modelled as [Z] with the two's-complement wrap-around written out.
    Go strings are byte strings and are modelled by [string].  An [error]
    is modelled by its message, or by a constructor named after the
    sentinel or the message that builds it. *)

From Stdlib Require Import ZArith Lia Bool Ascii String List Sorted.
From stdpp Require Import base decidable option gmap strings list.

Set Default Proof Using "Type".

(** ** Machine integers *)

Module GoInt.
Local Open Scope Z_scope.

Definition int64_min : Z := - 2 ^ 63.
Definition int64_max : Z := 2 ^ 63 - 1.

(** Two's-complement reduction of a mathematical integer to 64 bits. *)
Definition int64_wrap (z : Z) : Z := (z + 2 ^ 63) mod 2 ^ 64 - 2 ^ 63.

Definition in_int64 (z : Z) : Prop := int64_min <= z <= int64_max.

End GoInt.

(** ** time: durations in nanoseconds *)

Module GoTime.
Local Open Scope Z_scope.

Definition Nanosecond : Z := 1.
Definition Second : Z := 1000000000 * Nanosecond.
Definition Minute : Z := 60 * Second.

End GoTime.

(** ** client: exponential back-off *)

Module Backoff.
Import GoInt GoTime.
Local Open Scope Z_scope.

(** [var exponentialBackoffSmallestUnit time.Duration = time.Minute] *)
Definition exponentialBackoffSmallestUnit : Z := Minute.

Definition perIntervalAttempts : Z := 3.

Definition ErrTriedMax : string := "Tried maximum amount of times".

(** The [for c := 0; c <= tried; c += perIntervalAttempts] loop.  The
    triple [(c, interval, nextInterval)] is the loop state; [fuel] bounds
    the number of iterations and [None] means the bound was reached. *)
Fixpoint backoff_loop (fuel : nat) (tried maxInterval c interval nextInterval : Z)
  : option (Z * option string) :=
  if c <=? tried then
    match fuel with
    | O => None
    | S fuel' =>
        let interval := nextInterval in
        let nextInterval := int64_wrap (nextInterval * 2) in
        if interval >=? maxInterval then
          if int64_wrap (tried - c) >=? perIntervalAttempts then
            Some (0, Some ErrTriedMax)
          else if maxInterval <? exponentialBackoffSmallestUnit then
            Some (exponentialBackoffSmallestUnit, None)
          else Some (maxInterval, None)
        else
          backoff_loop fuel' tried maxInterval
            (int64_wrap (c + perIntervalAttempts)) interval nextInterval
    end
  else Some (interval, None).

Definition GetExponentialBackoffTime (fuel : nat) (tried maxInterval : Z)
  : option (Z * option string) :=
  let interval := 1 * exponentialBackoffSmallestUnit in
  let nextInterval := interval in
  backoff_loop fuel tried maxInterval 0 interval nextInterval.

(** The schedule the specification lists for a cap of five minutes. *)
Definition cap5_schedule : list (option (Z * option string)) :=
  [Some (1 * Minute, None); Some (1 * Minute, None); Some (1 * Minute, None);
   Some (2 * Minute, None); Some (2 * Minute, None); Some (2 * Minute, None);
   Some (4 * Minute, None); Some (4 * Minute, None); Some (4 * Minute, None);
   Some (5 * Minute, None); Some (5 * Minute, None); Some (5 * Minute, None);
   Some (0, Some ErrTriedMax)].

(** The largest cap for which the doubling never leaves the 64-bit range:
    2^27 minutes. *)
Definition maxSafeInterval : Z := exponentialBackoffSmallestUnit * 2 ^ 27.

Definition backoff_result_ok (maxInterval : Z) (r : Z * option string) : Prop :=
  (r.2 = None /\ exponentialBackoffSmallestUnit <= r.1 <= maxInterval)
  \/ r = (0, Some ErrTriedMax).

(** The bound as the specification words it: for every [tried] and
    every cap that is at least the base unit, a returned interval is
    neither greater than the cap nor less than the base unit. *)
Definition backoff_always_within_bounds : Prop :=
  forall (fuel : nat) (tried maxInterval : Z) (r : Z * option string),
    in_int64 tried ->
    exponentialBackoffSmallestUnit <= maxInterval <= int64_max ->
    GetExponentialBackoffTime fuel tried maxInterval = Some r ->
    backoff_result_ok maxInterval r.

End Backoff.

(** ** Go strings *)

Module GoStrings.
Local Open Scope Z_scope.

(** [strings.HasPrefix(s, prefix)] *)
Definition HasPrefix (s prefix : string) : bool := String.prefix prefix s.

(** [strings.Contains(s, substr)]: [substr] occurs at some offset of [s]. *)
Fixpoint Contains (s substr : string) : bool :=
  if String.prefix substr s then true
  else match s with
       | EmptyString => false
       | String _ s' => Contains s' substr
       end.

(** [strings.HasSuffix(s, suffix)] *)
Definition HasSuffix (s suffix : string) : bool :=
  (String.length suffix <=? String.length s)%nat
  && String.eqb (substring (String.length s - String.length suffix)
                           (String.length suffix) s) suffix.

Definition in_range (lo hi c : ascii) : bool :=
  (N_of_ascii lo <=? N_of_ascii c)%N && (N_of_ascii c <=? N_of_ascii hi)%N.

Definition is_digit (c : ascii) : bool := in_range "0" "9" c.
Definition is_alpha (c : ascii) : bool := in_range "A" "Z" c || in_range "a" "z" c.

(** Perl class [\s] is [[\t\n\f\r ]]; [\S] is its complement. *)
Definition is_space (c : ascii) : bool :=
  match N_of_ascii c with
  | 9%N | 10%N | 12%N | 13%N | 32%N => true
  | _ => false
  end.
Definition is_nonspace (c : ascii) : bool := negb (is_space c).

Fixpoint all_chars (p : ascii -> bool) (s : string) : bool :=
  match s with
  | EmptyString => true
  | String c s' => p c && all_chars p s'
  end.

(** [strings.TrimRight(s, "0123456789")]: [s] without its trailing digits. *)
Fixpoint TrimRight_digits (s : string) : string :=
  match s with
  | EmptyString => EmptyString
  | String c s' =>
      match TrimRight_digits s' with
      | EmptyString => if is_digit c then EmptyString else String c EmptyString
      | t => String c t
      end
  end.

(** The slice [s[n:]]. *)
Fixpoint drop_chars (n : nat) (s : string) : string :=
  match n, s with
  | O, _ => s
  | S n', String _ s' => drop_chars n' s'
  | S _, EmptyString => EmptyString
  end.

(** [s[len(strings.TrimRight(s, "0123456789")):]] *)
Definition trailing_digits (s : string) : string :=
  drop_chars (String.length (TrimRight_digits s)) s.

(** [strings.Split(s, sep)] for a separator of one byte. *)
Fixpoint Split (s : string) (sep : ascii) : list string :=
  match s with
  | EmptyString => [EmptyString]
  | String c s' =>
      if Ascii.eqb c sep then EmptyString :: Split s' sep
      else match Split s' sep with
           | w :: ws => String c w :: ws
           | [] => [String c EmptyString]
           end
  end.

Definition digit_value (c : ascii) : Z := Z.of_N (N_of_ascii c) - 48.

(** The value of a string of decimal digits, most significant first. *)
Fixpoint decimal_value (acc : Z) (s : string) : Z :=
  match s with
  | EmptyString => acc
  | String c s' => decimal_value (acc * 10 + digit_value c) s'
  end.

(** [strconv.Atoi]: an optional sign and at least one decimal digit,
    nothing else, and a value that fits in an [int]; [None] is the
    error. *)
Definition Atoi (s : string) : option Z :=
  let '(neg, digits) :=
    match s with
    | String c d =>
        if Ascii.eqb c "+" then (false, d)
        else if Ascii.eqb c "-" then (true, d)
        else (false, s)
    | EmptyString => (false, s)
    end in
  match digits with
  | EmptyString => None
  | _ =>
      if all_chars is_digit digits then
        let v := decimal_value 0 digits in
        let v := if neg then - v else v in
        if (- 2 ^ 63 <=? v) && (v <=? 2 ^ 63 - 1) then Some v else None
      else None
  end.

Definition hex_digit (d : Z) : ascii :=
  if d <? 10 then ascii_of_N (Z.to_N (48 + d)) else ascii_of_N (Z.to_N (65 + (d - 10))).

Fixpoint hex_digits (fuel : nat) (n : Z) (acc : string) : string :=
  match fuel with
  | O => acc
  | S fuel' =>
      let acc' := String (hex_digit (n mod 16)) acc in
      if n / 16 =? 0 then acc' else hex_digits fuel' (n / 16) acc'
  end.

(** [fmt.Sprintf("%X", n)] for an [int]: upper-case hexadecimal without
    leading zeros, a minus sign before the magnitude of a negative one.
    Sixteen digits cover 64 bits. *)
Definition FormatHexUpper (n : Z) : string :=
  if n <? 0 then "-" +:+ hex_digits 16 (- n) EmptyString
  else hex_digits 16 n EmptyString.

(** The digits of upper-case hexadecimal. *)
Definition is_upper_hex (c : ascii) : bool := is_digit c || in_range "A" "F" c.

End GoStrings.

(** ** regexp: leftmost-first matching *)

Module Regexp.
Import GoStrings.

(** The fragment of RE2 syntax the launcher uses.  Repetition is only
    applied to character classes.  The input is matched byte by byte:
    the classes of the launcher's expression are classes of ASCII bytes
    or the complement of the ASCII white space, to which every byte of a
    multi-byte rune belongs. *)
Inductive regex : Type :=
| Eps
| Class (p : ascii -> bool)
| Cat (r1 r2 : regex)
| Alt (r1 r2 : regex)
| Plus (p : ascii -> bool)
| Quest (r : regex).

Fixpoint lit (l : string) : regex :=
  match l with
  | EmptyString => Eps
  | String c l' => Cat (Class (Ascii.eqb c)) (lit l')
  end.

Definition orelse (a b : option string) : option string :=
  match a with Some x => Some x | None => b end.

(** Greedy [[class]+] with backtracking: the longer repetition is tried
    before the continuation [k] is given the shorter one. *)
Fixpoint plus_bt (p : ascii -> bool) (s : string) (k : string -> option string)
  : option string :=
  match s with
  | EmptyString => None
  | String c s' => if p c then orelse (plus_bt p s' k) (k s') else None
  end.

(** The match a backtracking search finds first, in continuation-passing
    style: [bt r s k] matches [r] at the start of [s] and hands the rest
    of the input to [k]; the result is the input left after the whole
    match.  Alternatives are tried left to right, [?] and [+] prefer to
    match more. *)
Fixpoint bt (r : regex) (s : string) (k : string -> option string)
  : option string :=
  match r with
  | Eps => k s
  | Class p =>
      match s with
      | EmptyString => None
      | String c s' => if p c then k s' else None
      end
  | Cat r1 r2 => bt r1 s (fun s' => bt r2 s' k)
  | Alt r1 r2 => orelse (bt r1 s k) (bt r2 s k)
  | Plus p => plus_bt p s k
  | Quest r1 => orelse (bt r1 s k) (k s)
  end.

(** Leftmost match: the first offset of [s] at which the search succeeds. *)
Fixpoint find_from (re : regex) (s : string) : option string :=
  match bt re s Some with
  | Some rest => Some (substring 0 (String.length s - String.length rest) s)
  | None =>
      match s with
      | EmptyString => None
      | String _ s' => find_from re s'
      end
  end.

(** [Regexp.FindString]: the text of the leftmost match, or the empty
    string when there is none. *)
Definition FindString (re : regex) (s : string) : string :=
  match find_from re s with
  | Some m => m
  | None => EmptyString
  end.

(** The language of a regular expression: [matches r w] when the whole
    of [w] is a word of [r]. *)
Fixpoint matches (r : regex) (w : string) : Prop :=
  match r with
  | Eps => w = EmptyString
  | Class p => exists c, w = String c EmptyString /\ p c = true
  | Cat r1 r2 => exists w1 w2, w = w1 +:+ w2 /\ matches r1 w1 /\ matches r2 w2
  | Alt r1 r2 => matches r1 w \/ matches r2 w
  | Plus p => w <> EmptyString /\ all_chars p w = true
  | Quest r1 => w = EmptyString \/ matches r1 w
  end.

End Regexp.

(** ** statescript: the launcher *)

Module Statescript.
Import GoInt GoTime GoStrings Regexp.
Local Open Scope Z_scope.

Definition exitRetryLater : Z := -2.

(** [retryTotScriptTime time.Duration = 1 * 3 * time.Minute] *)
Definition retryTotScriptTime : Z := 1 * 3 * Minute.

Definition retryTimeoutInterval : Z := 60 * Second.

(** The errors of the package, by the message that builds them. *)
Inductive error : Type :=
| ErrRetryLater
    (* "retry script later" *)
| ErrReadScriptsDir (cause : string)
    (* "statescript: can not read scripts directory" *)
| ErrReadVersionFile (cause : string)
    (* "statescript: can not read version file" *)
| ErrVersionMismatch (supported : list Z) (actual : Z)
    (* "statescript: supported versions does not match (supported: ..; actual: ..)" *)
| ErrOpenDatabase
    (* "failed to open the database" *)
| ErrNotExecutable (path : string)
    (* "statescript: script '..' is not executable" *)
| ErrExecuting (name : string) (code : Z)
    (* "statescript: error executing '..': .." *)
| ErrRetryLimitExceeded (name : string).
    (* "statescript: error - retry time limit exceeded for .." *)

Inductive result (A : Type) : Type :=
| Ok (a : A)
| Err (e : error).
Arguments Ok {A} a.
Arguments Err {A} e.

Record Launcher : Type := {
  ArtScriptsPath : string;
  RootfsScriptsPath : string;
  SupportedScriptVersions : list Z;
  Timeout : Z
}.

(** What the launcher reads of an [os.FileInfo]. *)
Record FileInfo : Type := {
  Name : string;
  Mode : Z
}.

Inductive ReadDirResult : Type :=
| DirEntries (files : list FileInfo)
| DirNotExist
| DirError (cause : string).

(** The file system as the launcher sees it: [ioutil.ReadDir] on a
    directory and [readVersion] on the path of a version file (an integer
    or the cause of the failure). *)
Record FileSystem : Type := {
  ReadDir : string -> ReadDirResult;
  readVersion : string -> Z + string
}.

(** [filepath.Join(dir, name)] for a directory and an entry of it, up to
    the cleaning of the path. *)
Definition Join (dir name : string) : string := dir +:+ "/" +:+ name.

Definition matchVersion (actual : Z) (supported : list Z) (hasScripts : bool)
  : option error :=
  if negb hasScripts then None
  else if existsb (fun v => v =? actual) supported then None
  else Some (ErrVersionMismatch supported actual).

(** [([A-Za-z]+)_(Enter|Leave|Error)_[0-9][0-9](_\S+)?] *)
Definition scriptNameRe : regex :=
  Cat (Plus is_alpha)
 (Cat (lit "_")
 (Cat (Alt (lit "Enter") (Alt (lit "Leave") (lit "Error")))
 (Cat (lit "_")
 (Cat (Class is_digit)
 (Cat (Class is_digit)
      (Quest (Cat (lit "_") (Plus is_nonspace)))))))).

(** [len(file.Name()) == len(re.FindString(file.Name()))] *)
Definition full_match (name : string) : bool :=
  Nat.eqb (String.length name) (String.length (FindString scriptNameRe name)).

(** [strings.Contains(file.Name(), state+"_") &&
    strings.Contains(file.Name(), action)] *)
Definition candidate (state action : string) (file : FileInfo) : bool :=
  Contains (Name file) (state +:+ "_") && Contains (Name file) action.

Definition selected (state action : string) (file : FileInfo) : bool :=
  candidate state action file && full_match (Name file).

Definition rejected (state action : string) (file : FileInfo) : bool :=
  candidate state action file && negb (full_match (Name file)).

Definition format_warning (name : string) : string :=
  "script format mismatch: '" +:+ name +:+ "' will not be run ".

(** The [for _, file := range files] loop of [get]; its state is the
    selected scripts, the version read so far and the warnings logged. *)
Fixpoint get_loop (fs : FileSystem) (sDir state action : string)
    (files scripts : list FileInfo) (version : Z) (log : list string)
  : result (list FileInfo * Z) * list string :=
  match files with
  | [] => (Ok (scripts, version), log)
  | file :: files' =>
      let read :=
        if String.eqb (Name file) "version" then
          match readVersion fs (Join sDir (Name file)) with
          | inl v => Ok v
          | inr cause => Err (ErrReadVersionFile cause)
          end
        else Ok version in
      match read with
      | Err e => (Err e, log)
      | Ok version' =>
          if candidate state action file then
            if full_match (Name file)
            then get_loop fs sDir state action files' (scripts ++ [file]) version' log
            else get_loop fs sDir state action files' scripts version'
                   (log ++ [format_warning (Name file)])
          else get_loop fs sDir state action files' scripts version' log
      end
  end.

Definition scriptsDir (l : Launcher) (state : string) : string :=
  if String.eqb state "Idle" || String.eqb state "Sync" || String.eqb state "Download"
  then RootfsScriptsPath l
  else ArtScriptsPath l.

(** [Launcher.get]: the selected scripts and their directory, or an
    error; together with the warnings it logged. *)
Definition get (l : Launcher) (fs : FileSystem) (state action : string)
  : result (list FileInfo * string) * list string :=
  let sDir := scriptsDir l state in
  match ReadDir fs sDir with
  | DirNotExist => (Ok ([], EmptyString), [])
  | DirError cause => (Err (ErrReadScriptsDir cause), [])
  | DirEntries files =>
      match get_loop fs sDir state action files [] 0 [] with
      | (Err e, log) => (Err e, log)
      | (Ok (scripts, version), log) =>
          match matchVersion version (SupportedScriptVersions l)
                  (negb (Nat.eqb (length scripts) 0)) with
          | Some e => (Err e, log)
          | None => (Ok (scripts, sDir), log)
          end
      end
  end.

(** The second draft of [get] kept in the package: it has no check of the
    name format and matches the version even when nothing is selected. *)
Fixpoint get_draft_loop (fs : FileSystem) (sDir state action : string)
    (files scripts : list FileInfo) (version : Z)
  : result (list FileInfo * Z) :=
  match files with
  | [] => Ok (scripts, version)
  | file :: files' =>
      let read :=
        if String.eqb (Name file) "version" then
          match readVersion fs (Join sDir (Name file)) with
          | inl v => Ok v
          | inr cause => Err (ErrReadVersionFile cause)
          end
        else Ok version in
      match read with
      | Err e => Err e
      | Ok version' =>
          if Contains (Name file) state && Contains (Name file) action
          then get_draft_loop fs sDir state action files' (scripts ++ [file]) version'
          else get_draft_loop fs sDir state action files' scripts version'
      end
  end.

Definition get_draft (l : Launcher) (fs : FileSystem) (state action : string)
  : result (list FileInfo * string) :=
  let sDir := scriptsDir l state in
  match ReadDir fs sDir with
  | DirNotExist => Ok ([], EmptyString)
  | DirError cause => Err (ErrReadScriptsDir cause)
  | DirEntries files =>
      match get_draft_loop fs sDir state action files [] 0 with
      | Err e => Err e
      | Ok (scripts, version) =>
          if existsb (fun v => v =? version) (SupportedScriptVersions l)
          then Ok (scripts, sDir)
          else Err (ErrVersionMismatch (SupportedScriptVersions l) version)
      end
  end.

Definition getTimeout (l : Launcher) : Z :=
  let t := int64_wrap (Timeout l * Second) in
  if t =? 0 then 60 * Second else t.

(** [S_IXUSR | S_IXGRP | S_IXOTH] *)
Definition execBits : Z := Z.lor 64 (Z.lor 8 1).

Definition executable (s : FileInfo) : bool :=
  negb (Z.land (Mode s) execBits =? 0).

Record RetryLaterContext : Type := {
  State : string;
  LatestExecTime : Z;
  TotDuration : Z
}.

(** Modelled from the spec: the package [store] ([store.DBStore]) is not
    part of the sources at hand.  The specification describes it as an
    atomic key-value store with [Get(key, out)] answering [ErrNotExist] or
    the value, [Update(key, value)], [Remove(key)] and [ReadAll(key)];
    records are stored by script name.  This store has no failure other
    than [ErrNotExist], so the branches of the launcher that return an
    error of [Update], [Remove] or [Get] are not reached. *)
Definition Get (db : gmap string RetryLaterContext) (key : string)
  : option RetryLaterContext := db !! key.

(** Modelled from the spec: [ReadAll(key)] of the same store, the stored
    value or [ErrNotExist]. *)
Definition ReadAll (db : gmap string RetryLaterContext) (key : string)
  : option RetryLaterContext := db !! key.

(** Modelled from the spec: [Update(key, value)] of the same store. *)
Definition Update (db : gmap string RetryLaterContext) (key : string)
    (value : RetryLaterContext) : gmap string RetryLaterContext :=
  <[key := value]> db.

(** Modelled from the spec: [Remove(key)] of the same store. *)
Definition Remove (db : gmap string RetryLaterContext) (key : string)
  : gmap string RetryLaterContext := delete key db.

Definition getRetryLaterContext (db : gmap string RetryLaterContext)
    (scriptName : string) (newctx : RetryLaterContext)
  : RetryLaterContext * gmap string RetryLaterContext :=
  match Get db scriptName with
  | None => (newctx, Update db scriptName newctx)
  | Some ctx =>
      ({| State := State newctx;
          LatestExecTime := LatestExecTime newctx;
          TotDuration := int64_wrap (TotDuration newctx + TotDuration ctx) |},
       db)
  end.

(** [elapsedTime] is the value of [time.Since(execTime)]. *)
Definition handleRetryLaterError (db : gmap string RetryLaterContext)
    (scriptName execState : string) (execTime elapsedTime : Z)
  : error * gmap string RetryLaterContext :=
  let '(ctx, db1) :=
    getRetryLaterContext db scriptName
      {| State := execState; LatestExecTime := execTime;
         TotDuration := elapsedTime |} in
  let db2 := Update db1 scriptName ctx in
  if TotDuration ctx <=? retryTotScriptTime
  then (ErrRetryLater, db2)
  else (ErrRetryLimitExceeded scriptName, db2).

(** One run of a script as the launcher observes it: the exit code that
    [execute] returns, the value of [time.Now()] just before, and the
    value of [time.Since] when the exit is handled. *)
Record Run : Type := {
  ret : Z;
  execTime : Z;
  elapsed : Z
}.

(** The outcome of [ExecuteAll]: the returned error, the store it leaves
    and the scripts it ran with their exit codes, in order. *)
Record Outcome : Type := {
  returned : option error;
  db_after : gmap string RetryLaterContext;
  executed : list (string * Z)
}.

(** The [for _, s := range scr] loop of [ExecuteAll].  [execute path
    timeout] is the observation of running the script at [path]. *)
Fixpoint ExecuteAll_loop (execute : string -> Z -> Run) (timeout : Z)
    (dir state : string) (ignoreError : bool) (scr : list FileInfo)
    (db : gmap string RetryLaterContext) (trace : list (string * Z)) : Outcome :=
  match scr with
  | [] => {| returned := None; db_after := db; executed := trace |}
  | s :: scr' =>
      if Z.land (Mode s) execBits =? 0 then
        if ignoreError
        then ExecuteAll_loop execute timeout dir state ignoreError scr' db trace
        else {| returned := Some (ErrNotExecutable (Join dir (Name s)));
                db_after := db; executed := trace |}
      else
        let r := execute (Join dir (Name s)) timeout in
        let trace' := trace ++ [(Name s, ret r)] in
        let failure :=
          if negb (ret r =? 0) then
            if ignoreError then None
            else if ret r =? exitRetryLater then
              Some (handleRetryLaterError db (Name s) state (execTime r) (elapsed r))
            else Some (ErrExecuting (Name s) (ret r), db)
          else None in
        match failure with
        | Some (e, db') =>
            {| returned := Some e; db_after := db'; executed := trace' |}
        | None =>
            let db' :=
              match ReadAll db (Name s) with
              | Some _ => Remove db (Name s)
              | None => db
              end in
            ExecuteAll_loop execute timeout dir state ignoreError scr' db' trace'
        end
  end.

(** [Launcher.ExecuteAll].  [db] is the result of [store.NewDBStore]:
    [None] when the store cannot be opened. *)
Definition ExecuteAll (l : Launcher) (fs : FileSystem)
    (execute : string -> Z -> Run) (db : option (gmap string RetryLaterContext))
    (state action : string) (ignoreError : bool) : Outcome :=
  let got := (get l fs state action).1 in
  match db with
  | None => {| returned := Some ErrOpenDatabase; db_after := ∅; executed := [] |}
  | Some db =>
      match got with
      | Err e =>
          if ignoreError
          then {| returned := None; db_after := db; executed := [] |}
          else {| returned := Some e; db_after := db; executed := [] |}
      | Ok (scr, dir) =>
          ExecuteAll_loop execute (getTimeout l) dir state ignoreError scr db []
      end
  end.

(** The file-name format of the specification,
    [ClassName_Action_NN[_suffix]] with [NN] exactly two digits, that is
    the whole name matching
    [^([A-Za-z]+)_(Enter|Leave|Error)_[0-9]{2}(_\S+)?$]. *)
Definition script_name_format (name : string) : Prop :=
  exists (cls act : string) (d1 d2 : ascii) (suffix : string),
    name = cls +:+ "_" +:+ act +:+ "_" +:+ String d1 (String d2 suffix)
    /\ cls <> EmptyString /\ all_chars is_alpha cls = true
    /\ (act = "Enter" \/ act = "Leave" \/ act = "Error")
    /\ is_digit d1 = true /\ is_digit d2 = true
    /\ (suffix = EmptyString
        \/ exists t, suffix = "_" +:+ t /\ t <> EmptyString
                     /\ all_chars is_nonspace t = true).

(** Discovery selects exactly the candidates of the format and logs a
    warning for the others. *)
Definition selects_exact_format (l : Launcher) (fs : FileSystem)
    (state action : string) (files : list FileInfo) : Prop :=
  forall scripts dir log,
    get l fs state action = (Ok (scripts, dir), log) ->
    forall file, In file files -> candidate state action file = true ->
      (In file scripts <-> script_name_format (Name file))
      /\ (~ script_name_format (Name file) ->
          In (format_warning (Name file)) log).

(** The rejected entries do not decide the outcome: [get] returns the
    same scripts, or the same error, as on the listing without them. *)
Definition skips_without_failing (l : Launcher) (fs : FileSystem)
    (state action : string) (files : list FileInfo) : Prop :=
  forall fs',
    readVersion fs' = readVersion fs ->
    ReadDir fs' (scriptsDir l state)
      = DirEntries (List.filter (fun f => negb (rejected state action f)) files) ->
    (get l fs' state action).1 = (get l fs state action).1.

(** A scripts directory with the three names of the specification and a
    version file, and a launcher supporting versions 2 and 3. *)
Definition example_art_dir : list FileInfo :=
  [ {| Name := "ArtifactInstall_Leave"; Mode := 493 |};
    {| Name := "ArtifactInstall_Leave_100"; Mode := 493 |};
    {| Name := "ArtifactInstall_Leave_10_wifi-driver"; Mode := 493 |};
    {| Name := "version"; Mode := 420 |} ].

Definition example_fs : FileSystem :=
  {| ReadDir := fun dir =>
       if String.eqb dir "/art" then DirEntries example_art_dir else DirNotExist;
     readVersion := fun _ => inl 2 |}.

Definition example_launcher : Launcher :=
  {| ArtScriptsPath := "/art"; RootfsScriptsPath := "/rootfs";
     SupportedScriptVersions := [2; 3]; Timeout := 0 |}.

(** The total a retry-later exit leaves in the record. *)
Definition accumulated (db : gmap string RetryLaterContext) (name : string)
    (elapsedTime : Z) : Z :=
  match db !! name with
  | None => elapsedTime
  | Some old => int64_wrap (elapsedTime + TotDuration old)
  end.

(** A script that is executable and exits 0 when run. *)
Definition runs_clean (execute : string -> Z -> Run) (timeout : Z) (dir : string)
    (f : FileInfo) : Prop :=
  executable f = true /\ ret (execute (Join dir (Name f)) timeout) = 0.

(** Two observations of a run: a plain failure, and a request to be
    retried later after five seconds. *)
Definition failing_run : string -> Z -> Run :=
  fun _ _ => {| ret := 1; execTime := 1000; elapsed := 5 * Second |}.

Definition retry_run : string -> Z -> Run :=
  fun _ _ => {| ret := exitRetryLater; execTime := 1000; elapsed := 5 * Second |}.


(** The reading of the specification under which exit-retry-later is
    honoured although errors are ignored: within the budget the record is
    written and [ErrRetryLater] is returned. *)
Definition retry_later_honoured_when_ignoring : Prop :=
  forall (l : Launcher) (fs : FileSystem) (execute : string -> Z -> Run)
         (db : gmap string RetryLaterContext) (state action dir : string)
         (s : FileInfo) (log : list string),
    get l fs state action = (Ok ([s], dir), log) ->
    executable s = true ->
    ret (execute (Join dir (Name s)) (getTimeout l)) = exitRetryLater ->
    accumulated db (Name s) (elapsed (execute (Join dir (Name s)) (getTimeout l)))
      <= retryTotScriptTime ->
    let out := ExecuteAll l fs execute (Some db) state action true in
    returned out = Some ErrRetryLater /\ is_Some (db_after out !! Name s).

End Statescript.

(** ** main: bootloader environment, partitions, device *)

Module Device.
Import GoInt GoStrings.
Local Open Scope Z_scope.

(** The errors of the package: the sentinel values by name, and the
    errors built from a message or by wrapping. *)
Inductive error : Type :=
| errorNoUpgradeMounted
| RootPartitionDoesNotMatchMount
| ErrorNoMatchBootPartRootPart
| ErrorPartitionNumberNotSet
| ErrorPartitionNumberSame
| ErrorPartitionNoMatchActive
| New (msg : string)
| Wrap (cause : error) (msg : string).

(** [err.Error()] *)
Fixpoint Error (e : error) : string :=
  match e with
  | errorNoUpgradeMounted => "There is nothing to commit"
  | RootPartitionDoesNotMatchMount =>
      "Can not match active partition and any of mounted devices."
  | ErrorNoMatchBootPartRootPart => "No match between boot and root partitions."
  | ErrorPartitionNumberNotSet =>
      "RootfsPartA and RootfsPartB settings are not both set."
  | ErrorPartitionNumberSame =>
      "RootfsPartA and RootfsPartB cannot be set to the same value."
  | ErrorPartitionNoMatchActive =>
      "Active root partition matches neither RootfsPartA nor RootfsPartB."
  | New msg => msg
  | Wrap cause msg => msg +:+ ": " +:+ Error cause
  end.

Inductive result (A : Type) : Type :=
| Ok (a : A)
| Err (e : error).
Arguments Ok {A} a.
Arguments Err {A} e.

(** [BootVars], a [map[string]string]; indexing a missing key gives the
    empty string. *)
Definition index (m : gmap string string) (key : string) : string :=
  default EmptyString (m !! key).

(** The interface [BootEnvReadWriter] over the state [E] of the
    environment: [ReadEnv(names...)] answers variables or an error,
    [WriteEnv(vars)] answers an error or nothing and leaves a state. *)
Class BootEnvReadWriter (E : Type) : Type := {
  ReadEnv : E -> list string -> result (gmap string string);
  WriteEnv : E -> gmap string string -> option error * E
}.

(** Modelled from the spec: the implementation of the bootloader
    environment is not part of the sources at hand.  The specification
    gives [ReadEnv(names...)] returning a map and [WriteEnv(map)] taking
    effect for all of its variables or for none, with failures
    propagated and no caching.  [read_fault] and [write_fault] are the
    failures the medium answers with, if any. *)
Record MapEnv : Type := {
  vars : gmap string string;
  read_fault : option string;
  write_fault : option string
}.

(** Modelled from the spec: [ReadEnv(names...)], the variables of these
    names that are set, or the failure of the medium. *)
Definition MapEnv_ReadEnv (e : MapEnv) (names : list string)
  : result (gmap string string) :=
  match read_fault e with
  | Some msg => Err (New msg)
  | None => Ok (filter (fun kv => kv.1 ∈ names) (vars e))
  end.

(** Modelled from the spec: [WriteEnv(map)], all the variables of the
    map set at once, or none and the failure of the medium. *)
Definition MapEnv_WriteEnv (e : MapEnv) (m : gmap string string)
  : option error * MapEnv :=
  match write_fault e with
  | Some msg => (Some (New msg), e)
  | None => (None, {| vars := m ∪ vars e; read_fault := read_fault e;
                      write_fault := write_fault e |})
  end.

#[export] Instance MapEnv_BootEnv : BootEnvReadWriter MapEnv :=
  {| ReadEnv := MapEnv_ReadEnv; WriteEnv := MapEnv_WriteEnv |}.

(** What the partition manager asks of the operating system:
    [NewBlockDevice(path)] (its error, if any), the output of the command
    [mount], [Stat(name)] and the names under a directory of devices. *)
Record FileStat : Type := {
  IsDevice : bool;
  Rdev : Z;
  Dev : Z
}.

Record System : Type := {
  NewBlockDevice_error : string -> option error;
  mount_output : result string;
  Stat : string -> option FileStat;
  mounted_devices : string -> result (list string)
}.

(** Modelled from the spec: [BlockDevice] and [NewBlockDevice] are not
    part of the sources at hand.  [partition] embeds a [BlockDevice], of
    which only [Path] is read; the specification has a partition be "a
    path to a block device" with a string rendering, so the device made
    for a path carries that path. *)
Record partition : Type := {
  Path : string
}.

Definition NewPartition (sys : System) (path : string) : result partition :=
  if String.eqb path "" then Err (New "partition has no path")
  else match NewBlockDevice_error sys path with
       | Some e => Err (Wrap e "NewPartition: failed to initialize blockdevice")
       | None => Ok {| Path := path |}
       end.

Record partitions : Type := {
  rootfsPartA : option partition;
  rootfsPartB : option partition;
  active : option partition;
  inactive : option partition
}.

Definition set_active (p : partitions) (a : partition) : partitions :=
  {| rootfsPartA := rootfsPartA p; rootfsPartB := rootfsPartB p;
     active := Some a; inactive := inactive p |}.

Definition set_inactive (p : partitions) (a : option partition) : partitions :=
  {| rootfsPartA := rootfsPartA p; rootfsPartB := rootfsPartB p;
     active := active p; inactive := a |}.

Definition newline : ascii := ascii_of_N 10.

Fixpoint rootCandidate (lines : list string) : string :=
  match lines with
  | [] => EmptyString
  | line :: lines' =>
      match Split line " " with
      | f0 :: _ :: f2 :: _ =>
          if String.eqb f2 "/" then f0 else rootCandidate lines'
      | _ => rootCandidate lines'
      end
  end.

Definition getRootCandidateFromMount (data : string) : string :=
  rootCandidate (Split data newline).

Definition getRootDevice (sys : System) : option FileStat := Stat sys "/".

Definition isMountedRoot (sys : System) (dev : string) (root : FileStat) : bool :=
  match Stat sys dev with
  | None => false
  | Some st => IsDevice st && (Rdev st =? Dev root)
  end.

Fixpoint getRootFromMountedDevices (sys : System) (devices : list string)
    (root : FileStat) : result string :=
  match devices with
  | [] => Err RootPartitionDoesNotMatchMount
  | device :: devices' =>
      if isMountedRoot sys device root then Ok device
      else getRootFromMountedDevices sys devices' root
  end.

Definition checkBootEnvAndRootPartitionMatch (bootPartNum rootPart : string) : bool :=
  HasSuffix rootPart bootPartNum.

Section WithEnv.
Context {E : Type} `{BootEnvReadWriter E}.

Definition getBootEnvActivePartition (env : E) : result string :=
  match ReadEnv env ["mender_boot_part"] with
  | Err e => Err (Wrap e (Error ErrorNoMatchBootPartRootPart))
  | Ok bootEnv => Ok (index bootEnv "mender_boot_part")
  end.

Definition cache_active (sys : System) (p : partitions) (path : string)
  : result partition * partitions :=
  match NewPartition sys path with
  | Err e => (Err e, p)
  | Ok a => (Ok a, set_active p a)
  end.

Definition getAndCacheActivePartition (sys : System) (env : E) (p : partitions)
  : result partition * partitions :=
  match mount_output sys with
  | Err e => (Err e, p)
  | Ok mountData =>
      let mountCandidate := getRootCandidateFromMount mountData in
      match getRootDevice sys with
      | None => (Err (New "Can not find root device"), p)
      | Some rootDevice =>
          match getBootEnvActivePartition env with
          | Err e => (Err e, p)
          | Ok bootEnvBootPart =>
              if negb (String.eqb mountCandidate "")
                 && isMountedRoot sys mountCandidate rootDevice
              then cache_active sys p mountCandidate
              else if negb (String.eqb mountCandidate "")
                      && checkBootEnvAndRootPartitionMatch bootEnvBootPart
                           mountCandidate
              then cache_active sys p mountCandidate
              else
                match mounted_devices sys "/dev" with
                | Err e => (Err e, p)
                | Ok mountedDevices =>
                    match getRootFromMountedDevices sys mountedDevices rootDevice with
                    | Err e => (Err e, p)
                    | Ok activePartition =>
                        if checkBootEnvAndRootPartitionMatch bootEnvBootPart activePartition
                        then cache_active sys p activePartition
                        else (Err ErrorNoMatchBootPartRootPart, p)
                    end
                end
          end
      end
  end.

Definition GetActive (sys : System) (env : E) (p : partitions)
  : result partition * partitions :=
  match active p with
  | Some a => (Ok a, p)
  | None => getAndCacheActivePartition sys env p
  end.

Definition getAndCacheInactivePartition (sys : System) (env : E) (p : partitions)
  : result partition * partitions :=
  match rootfsPartA p, rootfsPartB p with
  | Some a, Some b =>
      if String.eqb (Path a) (Path b) then (Err ErrorPartitionNumberSame, p)
      else
        match GetActive sys env p with
        | (Err e, p') => (Err e, p')
        | (Ok act, p') =>
            if String.eqb (Path act) (Path a) then (Ok b, set_inactive p' (Some b))
            else if String.eqb (Path act) (Path b) then (Ok a, set_inactive p' (Some a))
            else (Err ErrorPartitionNoMatchActive, p')
        end
  | _, _ => (Err ErrorPartitionNumberNotSet, p)
  end.

Definition GetInactive (sys : System) (env : E) (p : partitions)
  : result partition * partitions :=
  match inactive p with
  | Some i => (Ok i, p)
  | None => getAndCacheInactivePartition sys env p
  end.

(** [device.getInactivePartition]: the decimal and the hexadecimal
    partition number. *)
Definition getInactivePartition (sys : System) (env : E) (p : partitions)
  : result (string * string) * partitions :=
  match GetInactive sys env p with
  | (Err e, p') =>
      (Err (New ("Error obtaining inactive partition: " +:+ Error e)), p')
  | (Ok inactivePartition, p') =>
      let s := Path inactivePartition in
      let partitionNumberDecStr := trailing_digits s in
      match Atoi partitionNumberDecStr with
      | None => (Err (New ("Invalid inactive partition: " +:+ s)), p')
      | Some partitionNumberDec =>
          (Ok (partitionNumberDecStr, FormatHexUpper partitionNumberDec), p')
      end
  end.

Definition SwapPartitions (sys : System) (env : E) (p : partitions)
  : option error * E * partitions :=
  match getInactivePartition sys env p with
  | (Err e, p') => (Some e, env, p')
  | (Ok (inactivePartition, inactivePartitionHex), p') =>
      let '(err, env') :=
        WriteEnv env (<["mender_boot_part" := inactivePartition]>
                     (<["mender_boot_part_hex" := inactivePartitionHex]>
                     (<["upgrade_available" := "0"]> ∅))) in
      (err, env', p')
  end.

Definition EnableUpdatedPartition (sys : System) (env : E) (p : partitions)
  : option error * E * partitions :=
  match getInactivePartition sys env p with
  | (Err e, p') => (Some e, env, p')
  | (Ok (inactivePartition, inactivePartitionHex), p') =>
      let '(err, env') :=
        WriteEnv env (<["upgrade_available" := "1"]>
                     (<["mender_boot_part" := inactivePartition]>
                     (<["mender_boot_part_hex" := inactivePartitionHex]>
                     (<["bootcount" := "0"]> ∅)))) in
      (err, env', p')
  end.

Definition HasUpdate (env : E) : bool * option error :=
  match ReadEnv env ["upgrade_available"] with
  | Err e => (false, Some (Wrap e "failed to read environment variable"))
  | Ok bootVars =>
      let upgradeAvailable := index bootVars "upgrade_available" in
      if String.eqb upgradeAvailable "1" then (true, None) else (false, None)
  end.

Definition CommitUpdate (env : E) : option error * E :=
  let '(hasUpdate, err) := HasUpdate env in
  match err with
  | Some e => (Some e, env)
  | None =>
      if hasUpdate then WriteEnv env (<["upgrade_available" := "0"]> ∅)
      else (Some errorNoUpgradeMounted, env)
  end.

End WithEnv.

Record deviceConfig : Type := {
  config_rootfsPartA : string;
  config_rootfsPartB : string
}.

(** [NewDevice]: the [partitions] of the device it builds. *)
Definition NewDevice (sys : System) (config : deviceConfig) : result partitions :=
  match NewPartition sys (config_rootfsPartA config) with
  | Err e => Err (Wrap e "failed to initialize rootfsPartA")
  | Ok rtfsa =>
      match NewPartition sys (config_rootfsPartB config) with
      | Err e => Err (Wrap e "failed to initialize rootfsPartB")
      | Ok rtfsb =>
          Ok {| rootfsPartA := Some rtfsa; rootfsPartB := Some rtfsb;
                active := Some rtfsa; inactive := Some rtfsb |}
      end
  end.

(** The variables [EnableUpdatedPartition] hands to [WriteEnv]. *)
Definition enable_vars (dec hex : string) : gmap string string :=
  <["upgrade_available" := "1"]>
  (<["mender_boot_part" := dec]>
  (<["mender_boot_part_hex" := hex]>
  (<["bootcount" := "0"]> ∅))).

(** The value of a string of upper-case hexadecimal digits. *)
Definition hex_digit_value (c : ascii) : Z :=
  if is_digit c then Z.of_N (N_of_ascii c) - 48 else Z.of_N (N_of_ascii c) - 55.

Fixpoint hex_value (acc : Z) (s : string) : Z :=
  match s with
  | EmptyString => acc
  | String c s' => hex_value (acc * 16 + hex_digit_value c) s'
  end.

(** A system whose root file system is mounted from /dev/mmcblk0p3, with
    the bootloader environment saying so. *)
Definition root_on_p3 : System :=
  {| NewBlockDevice_error := fun _ => None;
     mount_output :=
       Ok ("/dev/mmcblk0p3 on / type ext4 (rw)" +:+ String newline
           "proc on /proc type proc (rw)");
     Stat := fun name =>
       if String.eqb name "/" then
         Some {| IsDevice := false; Rdev := 0; Dev := 45827 |}
       else if String.eqb name "/dev/mmcblk0p3" then
         Some {| IsDevice := true; Rdev := 45827; Dev := 5 |}
       else if String.eqb name "/dev/mmcblk0p2" then
         Some {| IsDevice := true; Rdev := 45826; Dev := 5 |}
       else None;
     mounted_devices := fun _ => Ok ["/dev/mmcblk0p2"; "/dev/mmcblk0p3"] |}.

Definition env_boot_p3 : MapEnv :=
  {| vars := {[ "mender_boot_part" := "3" ]}; read_fault := None;
     write_fault := None |}.

Definition config_p2_p3 : deviceConfig :=
  {| config_rootfsPartA := "/dev/mmcblk0p2"; config_rootfsPartB := "/dev/mmcblk0p3" |}.

(** An environment with a pending upgrade whose medium refuses writes. *)
Definition env_upgrade_readonly : MapEnv :=
  {| vars := {[ "upgrade_available" := "1" ]}; read_fault := None;
     write_fault := Some "cannot write environment" |}.

(** The commit rule as the specification words it: the commit succeeds,
    leaving what the write of upgrade_available = "0" leaves, exactly
    when [HasUpdate] answered true. *)
Definition commit_succeeds_iff_has_update : Prop :=
  forall (E : Type) (H : BootEnvReadWriter E) (env : E),
    ((CommitUpdate env).1 = None
     /\ (CommitUpdate env).2 = (WriteEnv env (<["upgrade_available" := "0"]> ∅)).2)
    <-> HasUpdate env = (true, None).

(** The hex rule as the specification words it: a path is rejected only
    for having no trailing digits; with trailing digits the variables
    are written. *)
Definition enable_writes_for_trailing_digits : Prop :=
  forall (E : Type) (H : BootEnvReadWriter E) (sys : System) (env : E)
         (p p' : partitions) (part : partition),
    GetInactive sys env p = (Ok part, p') ->
    trailing_digits (Path part) <> EmptyString ->
    exists hex,
      EnableUpdatedPartition sys env p
      = (let '(err, env') :=
           WriteEnv env (enable_vars (trailing_digits (Path part)) hex) in
         (err, env', p')).

End Device.

(** ** client: update-status and log requests *)

Module Client.
Import GoStrings.
Local Open Scope Z_scope.

Definition apiPrefix : string := "/api/devices/v1/".

Definition buildURL (server : string) : string :=
  if HasPrefix server "https://" || HasPrefix server "http://" then server
  else "https://" +:+ server.

Definition buildApiURL (server url : string) : string :=
  let url := if HasPrefix url "/" then drop_chars 1 url else url in
  buildURL server +:+ apiPrefix +:+ url.

(** [UpdateStatus] values. *)
Definition ScriptStarted : string := "started".
Definition ScriptFinished : string := "finished".
Definition ScriptError : string := "error".
Definition StateEntered : string := "state-entered".
Definition StateFinished : string := "state-finished".

Record UpdateStatusData : Type := {
  State : string;
  ScriptName : string;
  Status : string
}.

(** The members of the JSON object that encodes an [UpdateStatusData],
    by name: [script_name] is marked [omitempty]. *)
Definition json_members (data : UpdateStatusData) : list (string * string) :=
  [("client_state", State data)]
  ++ (if String.eqb (ScriptName data) "" then [] else [("script_name", ScriptName data)])
  ++ [("script_status", Status data)].

Record Request : Type := {
  Method : string;
  URL : string;
  Body : list (string * string);
  Header : list (string * string)
}.

Record Response : Type := {
  StatusCode : Z
}.

Inductive error : Type :=
| ErrPrepare (cause : string)
    (* "failed to prepare update-status submit request" wrapping
       "failed to create update-status HTTP request" *)
| ErrSubmitFailed (cause : string)
    (* "inventory submit failed" wrapping the error of the requester *)
| ErrBadStatus (code : Z).
    (* "inventory submit failed, bad status .." *)

Definition StatusOK : Z := 200.

(** [fmt.Sprintf("/device/deployments/{%s}/status", "10")] *)
Definition statusPath : string :=
  "/device/deployments/{" +:+ "10" +:+ "}/status".

(** [makeUpdateStatusRequest].  [NewRequest_error url] is the error of
    [http.NewRequest] for the URL, if any; the encoding of an
    [UpdateStatusData] does not fail. *)
Definition makeUpdateStatusRequest (NewRequest_error : string -> option string)
    (server : string) (data : UpdateStatusData) : Request + error :=
  let url := buildApiURL server statusPath in
  match NewRequest_error url with
  | Some cause => inr (ErrPrepare cause)
  | None =>
      inl {| Method := "PATCH"; URL := url; Body := json_members data;
             Header := [("Content-Type", "application/json")] |}
  end.

(** [UpdateStatusClient.Submit]; [api] is the method [Do] of the
    requester, answering a response or the cause of a failure. *)
Definition Submit (NewRequest_error : string -> option string)
    (api : Request -> Response + string) (url : string)
    (data : UpdateStatusData) : option error :=
  match makeUpdateStatusRequest NewRequest_error url data with
  | inr e => Some e
  | inl req =>
      match api req with
      | inr cause => Some (ErrSubmitFailed cause)
      | inl r =>
          if negb (StatusCode r =? StatusOK) then Some (ErrBadStatus (StatusCode r))
          else None
      end
  end.

(** The URL of [makeLogUploadRequest], built from the deployment ID:
    [fmt.Sprintf("/deployments/device/deployments/%s/log", logs.DeploymentID)]. *)
Definition logUploadURL (server DeploymentID : string) : string :=
  buildApiURL server ("/deployments/device/deployments/" +:+ DeploymentID +:+ "/log").

(** The URL the specification gives for a status report of the
    deployment [id]. *)
Definition spec_status_url (server id : string) : string :=
  buildURL server +:+ "/api/devices/v1/deployments/device/deployments/"
    +:+ id +:+ "/status".

End Client.

(** ** client: the API requester, error bodies and the log upload *)

Module ClientApi.
Import GoStrings Client.
Local Open Scope Z_scope.

(** [http.Header]: the values of each key, in order.  The keys used
    here are in canonical form already. *)
Definition Header_Get (h : gmap string (list string)) (key : string) : string :=
  match h !! key with
  | Some (v :: _) => v
  | _ => EmptyString
  end.

Definition Header_Set (h : gmap string (list string)) (key value : string)
  : gmap string (list string) :=
  <[key := [value]]> h.

Definition Header_Add (h : gmap string (list string)) (key value : string)
  : gmap string (list string) :=
  <[key := default [] (h !! key) ++ [value]]> h.

Record HttpRequest : Type := {
  req_Method : string;
  req_URL : string;
  req_Header : gmap string (list string);
  req_Body : string
}.

(** The request [ApiRequest.Do] hands to the client: the authorization
    is filled in when the request carries none.  [Do] sets the header on
    the request it was given, so this is also the request the caller
    holds afterwards. *)
Definition authorize (auth : string) (req : HttpRequest) : HttpRequest :=
  if String.eqb (Header_Get (req_Header req) "Authorization") "" then
    {| req_Method := req_Method req; req_URL := req_URL req;
       req_Header := Header_Set (req_Header req) "Authorization" ("Bearer " +:+ auth);
       req_Body := req_Body req |}
  else req.

(** [ApiRequest.Do]; [api] is the method [Do] of the wrapped client. *)
Definition ApiRequest_Do {R : Type} (api : HttpRequest -> R) (auth : string)
    (req : HttpRequest) : R :=
  api (authorize auth req).

(** [getRequestErrorInfo].  [decoded] is the outcome of decoding the
    body into the members [error] and [request_id]: the two strings, or
    the cause of the failure. *)
Definition getRequestErrorInfo (decoded : string * string + string)
  : string + string :=
  match decoded with
  | inr cause =>
      inr ("failed to unmarshal request ID from failed api request: " +:+ cause)
  | inl (errorText, reqID) =>
      if negb (String.eqb errorText "") && String.eqb reqID "" then
        inr ("received an error: " +:+ errorText
             +:+ " from the server, but no request id")
      else if String.eqb errorText "" && negb (String.eqb reqID "") then
        inr "received a request id, but no error"
      else if negb (String.eqb errorText "") && negb (String.eqb reqID "") then
        inl (errorText +:+ ": requestID: " +:+ reqID)
      else inr "received no error, and no request-id"
  end.

Record LogData : Type := {
  DeploymentID : string;
  Messages : string
}.

Inductive upload_error : Type :=
| ErrCompress (cause : string)
    (* "failed to compress the request body" or "failed to close gzip writer",
       wrapped in "failed to prepare log upload request" *)
| ErrCreateRequest (cause : string)
    (* "failed to create log sending HTTP request" *)
| ErrUploadFailed (cause : string)
    (* "uploading logs failed" *)
| ErrUploadStatus (code : Z).
    (* "uploading logs failed, bad status .." *)

Definition StatusNoContent : Z := 204.

(** [makeLogUploadRequest].  [gzip] is the compression of the messages
    (the bytes, or the cause of a failure of the writer) and
    [NewRequest_error url] the error of [http.NewRequest], if any. *)
Definition makeLogUploadRequest (gzip : string -> string + string)
    (NewRequest_error : string -> option string) (server : string)
    (logs : LogData) : HttpRequest + upload_error :=
  let path := "/deployments/device/deployments/" +:+ DeploymentID logs +:+ "/log" in
  let url := buildApiURL server path in
  match gzip (Messages logs) with
  | inr cause => inr (ErrCompress cause)
  | inl buf =>
      match NewRequest_error url with
      | Some cause => inr (ErrCreateRequest cause)
      | None =>
          inl {| req_Method := "PUT"; req_URL := url;
                 req_Header :=
                   Header_Add (Header_Add ∅ "Content-Encoding" "gzip")
                     "Content-Type" "application/json";
                 req_Body := buf |}
      end
  end.

(** [LogUploadClient.Upload] *)
Definition Upload (gzip : string -> string + string)
    (NewRequest_error : string -> option string)
    (api : HttpRequest -> Response + string) (url : string) (logs : LogData)
  : option upload_error :=
  match makeLogUploadRequest gzip NewRequest_error url logs with
  | inr e => Some e
  | inl req =>
      match api req with
      | inr cause => Some (ErrUploadFailed cause)
      | inl r =>
          if negb (StatusCode r =? StatusNoContent)
          then Some (ErrUploadStatus (StatusCode r))
          else None
      end
  end.

End ClientApi.

(** ** statescript: the version of the rootfs scripts *)

Module StatescriptVersion.
Import GoInt GoTime GoStrings Statescript.
Local Open Scope Z_scope.

(** What [readVersion] answers for the version file: its number, the
    error of a missing file ([os.IsNotExist]), or another error. *)
Inductive VersionRead : Type :=
| VersionIs (ver : Z)
| VersionNotExist
| VersionUnreadable (cause : string).

Inductive check_error : Type :=
| ErrReadRootfsVersion (cause : string)
    (* "statescript: can not read rootfs scripts version" *)
| ErrUnsupportedVersion (ver : Z).
    (* "statescript: unsupported scripts version: .." *)

(** [Launcher.CheckRootfsScriptsVersion]; [readVersion] is the function
    of that name applied to the path of the version file. *)
Definition CheckRootfsScriptsVersion (l : Launcher)
    (readVersion : string -> VersionRead) : option check_error :=
  match readVersion (Join (RootfsScriptsPath l) "version") with
  | VersionNotExist => None
  | VersionUnreadable cause => Some (ErrReadRootfsVersion cause)
  | VersionIs ver =>
      if existsb (fun v => v =? ver) (SupportedScriptVersions l) then None
      else Some (ErrUnsupportedVersion ver)
  end.

End StatescriptVersion.

(** ** main: installing an image *)

Module DeviceInstall.
Import GoInt GoStrings Device.
Local Open Scope Z_scope.

Section WithEnv.
Context {E : Type} `{BootEnvReadWriter E}.

(** [device.InstallUpdate].  [image] is the reader ([None] for nil);
    [copy partition image] is [io.Copy] into the partition: the error,
    if any. *)
Definition InstallUpdate {I : Type} (copy : partition -> I -> option error)
    (sys : System) (env : E) (p : partitions) (image : option I) (size : Z)
  : option error * partitions :=
  match image with
  | None => (Some (New "Have invalid update. Aborting."), p)
  | Some img =>
      if size <? 0 then (Some (New "Have invalid update. Aborting."), p)
      else
        match GetInactive sys env p with
        | (Err e, p') =>
            (Some (Wrap e "failed to get the inactive partition"), p')
        | (Ok inactivePartition, p') =>
            match copy inactivePartition img with
            | Some e => (Some (Wrap e "failed to install the new image"), p')
            | None => (None, p')
            end
        end
  end.

(** The law a bootloader environment is expected to follow at the state
    [env]: what a successful [WriteEnv] wrote is what [ReadEnv] answers
    for each of the variables written. *)
Definition reads_back (env : E) : Prop :=
  forall (m : gmap string string) (env' : E),
    WriteEnv env m = (None, env') ->
    forall k v, m !! k = Some v ->
      exists vars, ReadEnv env' [k] = Ok vars /\ vars !! k = Some v.

End WithEnv.

(** An environment with a pending upgrade, and one without. *)
Definition env_upgrade_pending : MapEnv :=
  {| vars := {[ "upgrade_available" := "1" ]}; read_fault := None;
     write_fault := None |}.

(** The partitions of a device configured with /dev/mmcblk0p2 and
    /dev/mmcblk0p3, before anything is cached. *)
Definition partitions_p2_p3 : partitions :=
  {| rootfsPartA := Some {| Path := "/dev/mmcblk0p2" |};
     rootfsPartB := Some {| Path := "/dev/mmcblk0p3" |};
     active := None; inactive := None |}.

(** An environment that can be read and does not set mender_boot_part. *)
Definition env_empty : MapEnv :=
  {| vars := ∅; read_fault := None; write_fault := None |}.

End DeviceInstall.

(** ** utils: the progress writer *)

Module Progress.
Local Open Scope Z_scope.

(** [ProgressWriter]: the bar, if any, as the calls of [Tick] it has
    received, latest last. *)
Record ProgressWriter : Type := {
  bar : option (list Z)
}.

(** [ProgressWriter.Write]: the count it reports and the writer it
    leaves; it never answers an error. *)
Definition Write {A : Type} (p : ProgressWriter) (data : list A)
  : Z * ProgressWriter :=
  let n := Z.of_nat (length data) in
  match bar p with
  | None => (n, p)
  | Some ticks => (n, {| bar := Some (ticks ++ [n]) |})
  end.

Fixpoint WriteAll {A : Type} (p : ProgressWriter) (chunks : list (list A))
  : list Z * ProgressWriter :=
  match chunks with
  | [] => ([], p)
  | data :: chunks' =>
      let '(n, p') := Write p data in
      let '(ns, p'') := WriteAll p' chunks' in
      (n :: ns, p'')
  end.

End Progress.

(** * Properties *)

Module GoIntFacts.
Import GoInt.
Local Open Scope Z_scope.

Lemma int64_wrap_id z : in_int64 z -> int64_wrap z = z.
Proof.
  unfold in_int64, int64_min, int64_max, int64_wrap. intros Hz.
  rewrite Z.mod_small; lia.
Qed.


End GoIntFacts.

(** ** Back-off: values, totality and bounds *)

Module BackoffFacts.
Import GoInt GoIntFacts GoTime Backoff.
Local Open Scope Z_scope.

(** More fuel never changes a result that was already reached. *)
Lemma backoff_loop_fuel_mono fuel extra tried maxInterval c i n r :
  backoff_loop fuel tried maxInterval c i n = Some r ->
  backoff_loop (fuel + extra) tried maxInterval c i n = Some r.
Proof.
  revert c i n. induction fuel as [|fuel IH]; intros c i n; simpl.
  - destruct (c <=? tried) eqn:Hc; [discriminate|].
    intros H. destruct extra; simpl; rewrite Hc; exact H.
  - destruct (c <=? tried) eqn:Hc; [|auto].
    destruct (n >=? maxInterval); [auto|]. apply IH.
Qed.


Lemma backoff_cap5_values :
  map (fun tried => GetExponentialBackoffTime 5 tried (5 * Minute))
      [0; 1; 2; 3; 4; 5; 6; 7; 8; 9; 10; 11; 12]
  = cap5_schedule.
Proof. vm_compute. reflexivity. Qed.

Lemma backoff_cap5_values_fuel fuel :
  (5 <= fuel)%nat ->
  map (fun tried => GetExponentialBackoffTime fuel tried (5 * Minute))
      [0; 1; 2; 3; 4; 5; 6; 7; 8; 9; 10; 11; 12]
  = cap5_schedule.
Proof.
  intros Hf. replace fuel with (5 + (fuel - 5))%nat by lia.
  rewrite <- backoff_cap5_values.
  apply map_ext_in. intros tried Hin. unfold GetExponentialBackoffTime.
  simpl in Hin.
  repeat (destruct Hin as [<-|Hin];
          [erewrite backoff_loop_fuel_mono by (vm_compute; reflexivity);
           vm_compute; reflexivity|]).
  destruct Hin.
Qed.

(** Invariant of the loop on entry to iteration [k]: [c = 3k], the next
    interval is the unit doubled [k] times without overflow, and the
    current interval lies between the unit and the cap. *)
Lemma backoff_loop_inv fuel : forall (k : nat) tried maxInterval i,
  (fuel + k = 28)%nat ->
  (1 <= fuel)%nat ->
  in_int64 tried ->
  exponentialBackoffSmallestUnit <= maxInterval <= maxSafeInterval ->
  exponentialBackoffSmallestUnit <= i <= maxInterval ->
  exists r,
    backoff_loop fuel tried maxInterval (3 * Z.of_nat k) i
      (exponentialBackoffSmallestUnit * 2 ^ Z.of_nat k) = Some r
    /\ backoff_result_ok maxInterval r.
Proof.
  induction fuel as [|fuel IH]; intros k tried maxInterval i Hk Hf Ht Hmax Hi;
    [lia|].
  assert (Hu : exponentialBackoffSmallestUnit = 60000000000) by reflexivity.
  assert (Hpk : 1 <= 2 ^ Z.of_nat k) by (apply Z.pow_le_mono_r with (b := 0); lia).
  cbn [backoff_loop].
  destruct (3 * Z.of_nat k <=? tried) eqn:Hc.
  2:{ eexists; split; [reflexivity|]. left; simpl; auto. }
  apply Z.leb_le in Hc.
  destruct (exponentialBackoffSmallestUnit * 2 ^ Z.of_nat k >=? maxInterval) eqn:Hge.
  - destruct (int64_wrap (tried - 3 * Z.of_nat k) >=? perIntervalAttempts).
    + eexists; split; [reflexivity|]. right; reflexivity.
    + destruct (maxInterval <? exponentialBackoffSmallestUnit) eqn:Hlt.
      * apply Z.ltb_lt in Hlt. lia.
      * eexists; split; [reflexivity|]. left; simpl. split; [reflexivity|lia].
  - assert (Hn : exponentialBackoffSmallestUnit * 2 ^ Z.of_nat k < maxInterval) by lia.
    assert (Hk27 : (k < 27)%nat).
    { destruct (Nat.lt_ge_cases k 27) as [|Hk27]; [assumption|exfalso].
      assert (2 ^ 27 <= 2 ^ Z.of_nat k) by (apply Z.pow_le_mono_r; lia).
      unfold maxSafeInterval in Hmax. nia. }
    assert (Hp1 : 2 ^ Z.of_nat (S k) = 2 * 2 ^ Z.of_nat k).
    { rewrite Nat2Z.inj_succ, Z.pow_succ_r by lia. reflexivity. }
    assert (Hp27 : 2 ^ Z.of_nat (S k) <= 2 ^ 27) by (apply Z.pow_le_mono_r; lia).
    unfold perIntervalAttempts.
    rewrite (int64_wrap_id (3 * Z.of_nat k + 3)).
    2:{ unfold in_int64, int64_min, int64_max in *. lia. }
    rewrite (int64_wrap_id (exponentialBackoffSmallestUnit * 2 ^ Z.of_nat k * 2)).
    2:{ unfold in_int64, int64_min, int64_max. nia. }
    replace (3 * Z.of_nat k + 3) with (3 * Z.of_nat (S k)) by lia.
    replace (exponentialBackoffSmallestUnit * 2 ^ Z.of_nat k * 2)
      with (exponentialBackoffSmallestUnit * 2 ^ Z.of_nat (S k)) by lia.
    apply IH; try assumption; lia.
Qed.

(** The loop ends whatever the cap: [c] grows by three until it passes
    [tried], which it does without wrapping when [tried] is at least
    three below the largest [int]. *)
Lemma backoff_loop_total fuel : forall tried maxInterval c i n,
  0 <= c -> tried <= int64_max - 3 ->
  (c <= tried -> tried - c < 3 * Z.of_nat fuel) ->
  exists r, backoff_loop fuel tried maxInterval c i n = Some r.
Proof.
  induction fuel as [|fuel IH]; intros tried maxInterval c i n Hc Ht Hfuel.
  - simpl. destruct (c <=? tried) eqn:Hle; [|eauto].
    apply Z.leb_le in Hle. specialize (Hfuel Hle). lia.
  - cbn [backoff_loop]. destruct (c <=? tried) eqn:Hle; [|eauto].
    apply Z.leb_le in Hle. specialize (Hfuel Hle).
    destruct (n >=? maxInterval).
    + destruct (_ >=? _); [eauto|]. destruct (_ <? _); eauto.
    + unfold perIntervalAttempts. rewrite (int64_wrap_id (c + 3)).
      2:{ unfold in_int64, int64_min, int64_max in *. lia. }
      apply IH; lia.
Qed.

Lemma GetExponentialBackoffTime_total fuel tried maxInterval :
  tried <= int64_max - 3 -> tried < 3 * Z.of_nat fuel ->
  exists r, GetExponentialBackoffTime fuel tried maxInterval = Some r.
Proof.
  intros Ht Hfuel. apply backoff_loop_total; lia.
Qed.

(** With the cap between the unit and 2^27 units the loop finishes within
    28 iterations and its result is the error or an interval between the
    unit and the cap. *)
Lemma backoff_bounded fuel tried maxInterval :
  (28 <= fuel)%nat ->
  in_int64 tried ->
  exponentialBackoffSmallestUnit <= maxInterval <= maxSafeInterval ->
  exists r,
    GetExponentialBackoffTime fuel tried maxInterval = Some r
    /\ backoff_result_ok maxInterval r.
Proof.
  intros Hf Ht Hmax.
  destruct (backoff_loop_inv 28 0 tried maxInterval
              (1 * exponentialBackoffSmallestUnit)) as (r & Hr & Hok);
    try assumption; try lia.
  exists r. split; [|assumption].
  replace fuel with (28 + (fuel - 28))%nat by lia.
  apply backoff_loop_fuel_mono. exact Hr.
Qed.

(** C1 (as stated, refuted): with the cap at the largest [time.Duration]
    the doubling overflows; after 84 attempts the function returns a
    negative interval, below the base unit, and no error. *)
Lemma C1_counterexample_overflow : ~ backoff_always_within_bounds.
Proof.
  intros Hclaim.
  assert (Hrun : GetExponentialBackoffTime 29 84 int64_max
                 = Some (-2340616713709551616, None))
    by (vm_compute; reflexivity).
  apply Hclaim in Hrun.
  - destruct Hrun as [[_ [Hlow _]]|Herr]; [|discriminate Herr].
    vm_compute in Hlow. apply Hlow. reflexivity.
  - unfold in_int64, int64_min, int64_max. lia.
  - unfold exponentialBackoffSmallestUnit, Minute, Second, Nanosecond, int64_max. lia.
Qed.

(** C1 (amended): for a cap of five minutes the successive results are
    1m,1m,1m,2m,2m,2m,4m,4m,4m,5m,5m,5m and then the error
    "Tried maximum amount of times"; and for every [tried] and every cap
    between the base unit (one minute) and 2^27 base units the function
    returns either that error or an interval that is neither greater than
    the cap nor less than the base unit. *)
Theorem C1_backoff_schedule_and_bounds fuel tried maxInterval :
  (28 <= fuel)%nat ->
  in_int64 tried ->
  exponentialBackoffSmallestUnit <= maxInterval <= maxSafeInterval ->
  map (fun t => GetExponentialBackoffTime fuel t (5 * Minute))
      [0; 1; 2; 3; 4; 5; 6; 7; 8; 9; 10; 11; 12] = cap5_schedule
  /\ exists r,
       GetExponentialBackoffTime fuel tried maxInterval = Some r
       /\ backoff_result_ok maxInterval r.
Proof.
  intros Hf Ht Hmax. split.
  - apply backoff_cap5_values_fuel. lia.
  - apply backoff_bounded; assumption.
Qed.

(** The bound at the largest safe cap, after 84 attempts. *)
Lemma C1_backoff_witness :
  map (fun t => GetExponentialBackoffTime 28 t (5 * Minute))
      [0; 1; 2; 3; 4; 5; 6; 7; 8; 9; 10; 11; 12] = cap5_schedule
  /\ exists r,
       GetExponentialBackoffTime 28 84 maxSafeInterval = Some r
       /\ backoff_result_ok maxSafeInterval r.
Proof.
  apply (C1_backoff_schedule_and_bounds 28 84 maxSafeInterval).
  - lia.
  - unfold in_int64, int64_min, int64_max. lia.
  - unfold maxSafeInterval, exponentialBackoffSmallestUnit, Minute, Second, Nanosecond. lia.
Defined.

End BackoffFacts.

(** ** Strings *)

Module StringFacts.
Import GoStrings.

Lemma append_cons c a b : String c a +:+ b = String c (a +:+ b).
Proof. reflexivity. Qed.

Lemma append_nil_l b : "" +:+ b = b.
Proof. reflexivity. Qed.

Lemma append_nil_r s : s +:+ "" = s.
Proof.
  induction s as [|c s IH]; [reflexivity|]. rewrite append_cons, IH. reflexivity.
Qed.

Lemma append_assoc a b c : (a +:+ b) +:+ c = a +:+ (b +:+ c).
Proof.
  induction a as [|x a IH]; [reflexivity|]. rewrite !append_cons, IH. reflexivity.
Qed.

Lemma length_append a b :
  String.length (a +:+ b) = (String.length a + String.length b)%nat.
Proof.
  induction a as [|x a IH]; [reflexivity|]. rewrite append_cons. simpl.
  rewrite IH. reflexivity.
Qed.

Lemma length_zero s : String.length s = 0%nat -> s = "".
Proof. destruct s; [reflexivity|discriminate]. Qed.

Lemma substring_whole_prefix w x : substring 0 (String.length w) (w +:+ x) = w.
Proof.
  induction w as [|c w IH].
  - rewrite append_nil_l. destruct x; reflexivity.
  - rewrite append_cons. simpl. rewrite IH. reflexivity.
Qed.

Lemma prefix_spec p s : String.prefix p s = true <-> exists x, s = p +:+ x.
Proof.
  revert s. induction p as [|c p IH]; intros s.
  - split; [intros _; exists s; reflexivity|]. intros _. destruct s; reflexivity.
  - destruct s as [|d s]; simpl.
    + split; [discriminate|]. intros [x Hx]. discriminate.
    + destruct (ascii_dec c d) as [->|Hne].
      * rewrite IH. split; intros [x Hx]; exists x.
        -- rewrite append_cons. congruence.
        -- rewrite append_cons in Hx. congruence.
      * split; [discriminate|]. intros [x Hx]. rewrite append_cons in Hx. congruence.
Qed.

Lemma Contains_nil sub :
  Contains "" sub = if String.prefix sub "" then true else false.
Proof. reflexivity. Qed.

Lemma Contains_cons c s sub :
  Contains (String c s) sub
  = if String.prefix sub (String c s) then true else Contains s sub.
Proof. reflexivity. Qed.

Lemma Contains_spec s sub :
  Contains s sub = true <-> exists a b, s = a +:+ sub +:+ b.
Proof.
  induction s as [|c s IH].
  - rewrite Contains_nil. destruct (String.prefix sub "") eqn:Hp.
    + split; [|reflexivity]. intros _. apply prefix_spec in Hp as [x Hx].
      exists "", x. exact Hx.
    + split; [discriminate|]. intros (a & b & Hab).
      destruct a; [|discriminate]. rewrite append_nil_l in Hab.
      assert (String.prefix sub "" = true) by (apply prefix_spec; eauto).
      congruence.
  - rewrite Contains_cons. destruct (String.prefix sub (String c s)) eqn:Hp.
    + split; [|reflexivity]. intros _. apply prefix_spec in Hp as [x Hx].
      exists "", x. exact Hx.
    + rewrite IH. split.
      * intros (a & b & ->). exists (String c a), b. reflexivity.
      * intros (a & b & Hab). destruct a as [|d a].
        -- rewrite append_nil_l in Hab.
           assert (String.prefix sub (String c s) = true)
             by (apply prefix_spec; eauto).
           congruence.
        -- rewrite append_cons in Hab. injection Hab as _ ->. eauto.
Qed.

Lemma all_chars_append p a b :
  all_chars p (a +:+ b) = all_chars p a && all_chars p b.
Proof.
  induction a as [|c a IH]; [reflexivity|]. rewrite append_cons. simpl.
  rewrite IH, andb_assoc. reflexivity.
Qed.

End StringFacts.

(** ** The regular-expression search *)

Module RegexpFacts.
Import GoStrings StringFacts Regexp.

Lemma plus_bt_sound p s : forall k rest,
  plus_bt p s k = Some rest ->
  exists w x, s = w +:+ x /\ w <> "" /\ all_chars p w = true /\ k x = Some rest.
Proof.
  induction s as [|c s IH]; intros k rest H; simpl in H; [discriminate|].
  destruct (p c) eqn:Hc; [|discriminate].
  destruct (plus_bt p s k) as [r|] eqn:Hrec; simpl in H.
  - injection H as ->. destruct (IH _ _ Hrec) as (w & x & -> & _ & Hw & Hk).
    exists (String c w), x. rewrite append_cons. simpl. rewrite Hc, Hw. auto.
  - exists (String c ""), s. simpl. rewrite Hc. auto.
Qed.

(** Whatever the search returns is the input left after a word of the
    expression on which the continuation succeeded. *)
Lemma bt_sound r : forall s k rest,
  bt r s k = Some rest ->
  exists w x, s = w +:+ x /\ matches r w /\ k x = Some rest.
Proof.
  induction r as [|p|r1 IH1 r2 IH2|r1 IH1 r2 IH2|p|r1 IH1]; intros s k rest H; simpl in H.
  - exists "", s. simpl. auto.
  - destruct s as [|c s]; [discriminate|]. destruct (p c) eqn:Hc; [|discriminate].
    exists (String c ""), s. simpl. eauto.
  - destruct (IH1 _ _ _ H) as (w1 & x1 & -> & Hm1 & Hk1).
    destruct (IH2 _ _ _ Hk1) as (w2 & x2 & -> & Hm2 & Hk2).
    exists (w1 +:+ w2), x2. rewrite append_assoc. simpl. eauto 10.
  - destruct (bt r1 s k) as [r|] eqn:H1; simpl in H.
    + injection H as ->. destruct (IH1 _ _ _ H1) as (w & x & -> & Hm & Hk).
      exists w, x. simpl. auto.
    + destruct (IH2 _ _ _ H) as (w & x & -> & Hm & Hk).
      exists w, x. simpl. auto.
  - destruct (plus_bt_sound _ _ _ _ H) as (w & x & -> & Hne & Hw & Hk).
    exists w, x. simpl. auto.
  - destruct (bt r1 s k) as [r|] eqn:H1; simpl in H.
    + injection H as ->. destruct (IH1 _ _ _ H1) as (w & x & -> & Hm & Hk).
      exists w, x. simpl. auto.
    + exists "", s. simpl. auto.
Qed.

Lemma matches_lit l w : matches (lit l) w <-> w = l.
Proof.
  revert w. induction l as [|c l IH]; intros w; simpl; [reflexivity|].
  split.
  - intros (w1 & w2 & -> & (d & -> & Hd) & Hw2).
    apply IH in Hw2 as ->. apply Ascii.eqb_eq in Hd as ->. reflexivity.
  - intros ->. exists (String c ""), l. split; [reflexivity|]. split.
    + exists c. split; [reflexivity|]. apply Ascii.eqb_refl.
    + apply IH. reflexivity.
Qed.

Lemma bt_lit_app l x k : bt (lit l) (l +:+ x) k = k x.
Proof.
  revert x k. induction l as [|c l IH]; intros x k; [reflexivity|].
  rewrite append_cons. simpl. rewrite Ascii.eqb_refl. apply IH.
Qed.

(** The greedy repetition takes the whole run when the continuation
    succeeds after it and the run cannot be extended. *)
Lemma plus_bt_greedy p w x k rest :
  w <> "" -> all_chars p w = true ->
  plus_bt p x k = None ->
  k x = Some rest ->
  plus_bt p (w +:+ x) k = Some rest.
Proof.
  intros Hne Hw Hx Hk. induction w as [|c w IH]; [congruence|].
  rewrite append_cons. simpl in *. apply andb_prop in Hw as [Hc Hw]. rewrite Hc.
  destruct w as [|d w].
  - rewrite append_nil_l, Hx. simpl. exact Hk.
  - rewrite IH; [reflexivity|discriminate|exact Hw].
Qed.

Lemma find_from_eq re s :
  find_from re s =
  match bt re s Some with
  | Some rest => Some (substring 0 (String.length s - String.length rest) s)
  | None => match s with
            | EmptyString => None
            | String _ s' => find_from re s'
            end
  end.
Proof. destruct s; reflexivity. Qed.

Lemma bt_match_text re s rest :
  bt re s Some = Some rest ->
  exists w, s = w +:+ rest /\ matches re w
            /\ substring 0 (String.length s - String.length rest) s = w.
Proof.
  intros Hb. destruct (bt_sound _ _ _ _ Hb) as (w & x & -> & Hm & [= ->]).
  exists w. repeat split; auto.
  rewrite length_append, Nat.add_sub. apply substring_whole_prefix.
Qed.

Lemma find_from_sound re s m :
  find_from re s = Some m ->
  exists pre rest, s = pre +:+ m +:+ rest /\ matches re m
                   /\ bt re (m +:+ rest) Some = Some rest.
Proof.
  induction s as [|c s IH]; rewrite find_from_eq.
  - destruct (bt re "" Some) as [rest|] eqn:Hb; [|discriminate].
    intros H. destruct (bt_match_text _ _ _ Hb) as (w & Hs & Hm & Hsub).
    rewrite Hsub in H. injection H as <-.
    exists "", rest. rewrite append_nil_l, <- Hs. auto.
  - destruct (bt re (String c s) Some) as [rest|] eqn:Hb.
    + intros H. destruct (bt_match_text _ _ _ Hb) as (w & Hs & Hm & Hsub).
      rewrite Hsub in H. injection H as <-.
      exists "", rest. rewrite append_nil_l, <- Hs. auto.
    + intros H. destruct (IH H) as (pre & rest & -> & Hm & Hb').
      exists (String c pre), rest. rewrite append_cons. auto.
Qed.

(** The match has the length of the whole (non-empty) input exactly when
    the search at offset 0 consumes all of it. *)
Lemma FindString_whole re s :
  s <> "" ->
  Nat.eqb (String.length s) (String.length (FindString re s)) = true
  <-> bt re s Some = Some "".
Proof.
  intros Hne. unfold FindString. split.
  - intros H. apply Nat.eqb_eq in H.
    destruct (find_from re s) as [m|] eqn:Hf.
    + destruct (find_from_sound _ _ _ Hf) as (pre & rest & Hs & Hm & Hb).
      rewrite Hs in H at 1. rewrite !length_append in H.
      assert (pre = "") as -> by (apply length_zero; lia).
      assert (rest = "") as -> by (apply length_zero; lia).
      rewrite append_nil_l in Hs. subst s. exact Hb.
    + simpl in H. apply length_zero in H. contradiction.
  - intros Hb. rewrite find_from_eq, Hb. simpl. rewrite Nat.sub_0_r.
    pose proof (substring_whole_prefix s "") as Hsub.
    rewrite append_nil_r in Hsub. rewrite Hsub. apply Nat.eqb_refl.
Qed.

End RegexpFacts.

(** ** Script discovery *)

Module DiscoveryFacts.
Import GoStrings StringFacts Regexp RegexpFacts Statescript.

Lemma bt_Cat r1 r2 s k : bt (Cat r1 r2) s k = bt r1 s (fun s' => bt r2 s' k).
Proof. reflexivity. Qed.
Lemma bt_Alt r1 r2 s k : bt (Alt r1 r2) s k = orelse (bt r1 s k) (bt r2 s k).
Proof. reflexivity. Qed.
Lemma bt_Class p c s k : bt (Class p) (String c s) k = if p c then k s else None.
Proof. reflexivity. Qed.
Lemma bt_Quest r s k : bt (Quest r) s k = orelse (bt r s k) (k s).
Proof. reflexivity. Qed.
Lemma bt_Plus p s k : bt (Plus p) s k = plus_bt p s k.
Proof. reflexivity. Qed.

(** The specification's format is the language of the expression. *)
Lemma format_iff_matches name :
  script_name_format name <-> matches scriptNameRe name.
Proof.
  unfold script_name_format, scriptNameRe. cbn [matches]. split.
  - intros (cls & act & d1 & d2 & suffix & -> & Hne & Hcls & Hact & Hd1 & Hd2 & Hsuf).
    exists cls, ("_" +:+ act +:+ "_" +:+ String d1 (String d2 suffix)).
    split; [reflexivity|]. split; [auto|].
    exists "_", (act +:+ "_" +:+ String d1 (String d2 suffix)).
    split; [reflexivity|]. split; [apply matches_lit; reflexivity|].
    exists act, ("_" +:+ String d1 (String d2 suffix)).
    split; [reflexivity|]. split.
    { rewrite !matches_lit. tauto. }
    exists "_", (String d1 (String d2 suffix)).
    split; [reflexivity|]. split; [apply matches_lit; reflexivity|].
    exists (String d1 ""), (String d2 suffix).
    split; [reflexivity|]. split; [eauto|].
    exists (String d2 ""), suffix.
    split; [reflexivity|]. split; [eauto|].
    destruct Hsuf as [->|(t & -> & Ht & Hall)]; [left; reflexivity|right].
    exists "_", t. split; [reflexivity|]. split; [apply matches_lit; reflexivity|auto].
  - intros (cls & w1 & -> & [Hne Hcls] & u & w2 & -> & Hu & act & w3 & -> & Hact
            & u' & w4 & -> & Hu' & x1 & w5 & -> & (d1 & -> & Hd1)
            & x2 & suffix & -> & (d2 & -> & Hd2) & Hsuf).
    apply matches_lit in Hu as ->. apply matches_lit in Hu' as ->.
    rewrite !matches_lit in Hact.
    exists cls, act, d1, d2, suffix. split; [reflexivity|].
    repeat (split; [assumption|]).
    destruct Hsuf as [->|(u & t & -> & Hu & Ht & Hall)]; [left; reflexivity|right].
    apply matches_lit in Hu as ->. exists t. auto.
Qed.

Lemma tail_search d1 d2 suffix :
  is_digit d1 = true -> is_digit d2 = true ->
  (suffix = "" \/ exists t, suffix = "_" +:+ t /\ t <> ""
                            /\ all_chars is_nonspace t = true) ->
  bt (Cat (lit "_") (Cat (Class is_digit) (Cat (Class is_digit)
        (Quest (Cat (lit "_") (Plus is_nonspace))))))
     ("_" +:+ String d1 (String d2 suffix)) Some = Some "".
Proof.
  intros Hd1 Hd2 Hsuf.
  rewrite bt_Cat, bt_lit_app, bt_Cat, bt_Class, Hd1, bt_Cat, bt_Class, Hd2, bt_Quest.
  destruct Hsuf as [->|(t & -> & Ht & Hall)]; [reflexivity|].
  rewrite bt_Cat, bt_lit_app, bt_Plus.
  rewrite <- (append_nil_r t) at 1.
  rewrite (plus_bt_greedy is_nonspace t "" Some ""); auto.
Qed.

(** A name of the format is consumed whole by the search at offset 0. *)
Lemma format_search_whole name :
  script_name_format name -> bt scriptNameRe name Some = Some "".
Proof.
  intros (cls & act & d1 & d2 & suffix & -> & Hne & Hcls & Hact & Hd1 & Hd2 & Hsuf).
  unfold scriptNameRe. rewrite bt_Cat, bt_Plus.
  apply plus_bt_greedy; [assumption|assumption|reflexivity|].
  rewrite bt_Cat, bt_lit_app, bt_Cat, !bt_Alt.
  pose proof (tail_search d1 d2 suffix Hd1 Hd2 Hsuf) as Htail.
  destruct Hact as [-> | [-> | ->]].
  - rewrite bt_lit_app, Htail. reflexivity.
  - replace (bt (lit "Enter") _ _) with (@None string) by reflexivity.
    rewrite bt_lit_app, Htail. reflexivity.
  - replace (bt (lit "Enter") _ _) with (@None string) by reflexivity.
    replace (bt (lit "Leave") _ _) with (@None string) by reflexivity.
    rewrite bt_lit_app, Htail. reflexivity.
Qed.

Lemma search_whole_format name :
  bt scriptNameRe name Some = Some "" -> script_name_format name.
Proof.
  intros Hb. apply format_iff_matches.
  destruct (bt_sound _ _ _ _ Hb) as (w & x & -> & Hm & [= ->]).
  rewrite append_nil_r. exact Hm.
Qed.

(** The launcher's test, equality of the lengths of the name and of its
    leftmost match, decides the format on non-empty names. *)
Lemma full_match_format name :
  name <> "" -> (full_match name = true <-> script_name_format name).
Proof.
  intros Hne. unfold full_match. rewrite (FindString_whole _ _ Hne).
  split; [apply search_whole_format|apply format_search_whole].
Qed.

Lemma Contains_nonempty s sub : sub <> "" -> Contains s sub = true -> s <> "".
Proof.
  intros Hsub Hc ->. apply Contains_spec in Hc as (a & b & Hab).
  destruct a; [|discriminate]. rewrite append_nil_l in Hab.
  destruct sub; [contradiction|discriminate].
Qed.

Lemma state_prefix_nonempty state : state +:+ "_" <> "".
Proof. destruct state; discriminate. Qed.

(** The file "version" is never a candidate: it has no underscore. *)
Lemma version_not_candidate state action file :
  candidate state action file = true -> String.eqb (Name file) "version" = false.
Proof.
  unfold candidate. intros Hc. apply andb_prop in Hc as [Hc _].
  apply String.eqb_neq. intros Heq. rewrite Heq in Hc.
  apply Contains_spec in Hc as (a & b & Hab).
  assert (Hall : all_chars (fun c => negb (Ascii.eqb c "_")) "version" = true)
    by reflexivity.
  rewrite Hab, !all_chars_append in Hall.
  replace (all_chars (fun c => negb (Ascii.eqb c "_")) "_") with false in Hall
    by reflexivity.
  rewrite andb_false_r, andb_false_l, andb_false_r in Hall. discriminate.
Qed.

(** What the loop of [get] computes when it runs to the end: the
    scripts are the candidates whose whole name matches, in directory
    order, and every other candidate is logged. *)
Lemma get_loop_spec fs sDir state action files :
  forall scripts0 v0 log0 scripts v log,
  get_loop fs sDir state action files scripts0 v0 log0 = (Ok (scripts, v), log) ->
  scripts = scripts0 ++ List.filter (selected state action) files
  /\ log = log0 ++ map (fun f => format_warning (Name f))
                       (List.filter (rejected state action) files).
Proof.
  induction files as [|file files IH]; intros scripts0 v0 log0 scripts v log; simpl.
  - intros [= <- _ <-]. rewrite !app_nil_r. auto.
  - unfold selected, rejected.
    destruct (if String.eqb (Name file) "version" then _ else _) as [v'|e];
      [|discriminate].
    destruct (candidate state action file); simpl; [|apply IH].
    destruct (full_match (Name file)); simpl; intros H; apply IH in H as [-> ->].
    + rewrite <- app_assoc. auto.
    + rewrite <- app_assoc. auto.
Qed.

(** The result of the loop does not depend on the log, and dropping the
    rejected entries from the listing does not change it. *)
Lemma get_loop_skip_rejected fs sDir state action files :
  forall scripts0 v0 log0 log0',
  (get_loop fs sDir state action
     (List.filter (fun f => negb (rejected state action f)) files)
     scripts0 v0 log0).1
  = (get_loop fs sDir state action files scripts0 v0 log0').1.
Proof.
  induction files as [|file files IH]; intros scripts0 v0 log0 log0'; [reflexivity|].
  cbn [List.filter]. destruct (rejected state action file) eqn:Hrej; cbn [negb].
  - unfold rejected in Hrej. apply andb_prop in Hrej as [Hcand Hfm].
    apply negb_true_iff in Hfm. cbn [get_loop].
    rewrite (version_not_candidate _ _ _ Hcand), Hcand, Hfm. apply IH.
  - cbn [get_loop].
    destruct (if String.eqb (Name file) "version" then _ else _) as [v'|e];
      [|reflexivity].
    unfold rejected in Hrej.
    destruct (candidate state action file); [|apply IH].
    simpl in Hrej. apply negb_false_iff in Hrej. rewrite Hrej. apply IH.
Qed.

(** C2: for every entry of the scripts directory whose name contains
    the transition-class name followed by an underscore and contains the
    action name, [Launcher.get] selects it if and only if its whole name
    has the form ClassName_Action_NN[_suffix] with NN exactly two digits;
    an entry of another form is logged as a warning and skipped, and does
    not change whether the discovery succeeds.  "ArtifactInstall_Leave"
    and "ArtifactInstall_Leave_100" are rejected,
    "ArtifactInstall_Leave_10_wifi-driver" is accepted. *)
Theorem C2_discovery_exact_format (l : Launcher) (fs : FileSystem)
    (state action : string) (files : list FileInfo) :
  ReadDir fs (scriptsDir l state) = DirEntries files ->
  (forall file, candidate state action file = true ->
     (selected state action file = true <-> script_name_format (Name file)))
  /\ selects_exact_format l fs state action files
  /\ skips_without_failing l fs state action files
  /\ get example_launcher example_fs "ArtifactInstall" "Leave"
     = (Ok ([ {| Name := "ArtifactInstall_Leave_10_wifi-driver"; Mode := 493 |} ],
            "/art"),
        [ format_warning "ArtifactInstall_Leave";
          format_warning "ArtifactInstall_Leave_100" ]).
Proof.
  intros Hdir. split; [|split; [|split]].
  - intros file Hcand. unfold selected. rewrite Hcand. cbn [andb].
    apply full_match_format. unfold candidate in Hcand.
    apply andb_prop in Hcand as [Hc _].
    exact (Contains_nonempty _ _ (state_prefix_nonempty state) Hc).
  - intros scripts dir log Hget file Hin Hcand.
    unfold get in Hget. rewrite Hdir in Hget.
    destruct (get_loop _ _ _ _ files [] 0%Z []) as [[[scr v]|e] lg] eqn:Hloop;
      [|discriminate].
    destruct (matchVersion _ _ _); [discriminate|].
    injection Hget as <- _ <-.
    apply get_loop_spec in Hloop as [-> ->]. simpl.
    assert (Hne : Name file <> "").
    { unfold candidate in Hcand. apply andb_prop in Hcand as [Hc _].
      exact (Contains_nonempty _ _ (state_prefix_nonempty state) Hc). }
    pose proof (full_match_format _ Hne) as Hfm.
    split.
    + rewrite filter_In. unfold selected. rewrite Hcand. simpl.
      rewrite <- Hfm. tauto.
    + intros Hnot. apply in_map_iff. exists file. split; [reflexivity|].
      apply filter_In. split; [assumption|]. unfold rejected. rewrite Hcand. simpl.
      destruct (full_match (Name file)); [|reflexivity].
      exfalso. apply Hnot, Hfm. reflexivity.
  - intros fs' Hrv Hdir'. unfold get. rewrite Hdir, Hdir'.
    pose proof (get_loop_skip_rejected fs (scriptsDir l state) state action files
                  [] 0%Z [] []) as Hskip.
    assert (Hfs : forall fl sc v lg,
               get_loop fs' (scriptsDir l state) state action fl sc v lg
               = get_loop fs (scriptsDir l state) state action fl sc v lg).
    { induction fl as [|f fl IH]; intros sc v lg; [reflexivity|].
      cbn [get_loop]. rewrite Hrv.
      destruct (if String.eqb (Name f) "version" then _ else _); [|reflexivity].
      destruct (candidate state action f); [|apply IH].
      destruct (full_match (Name f)); apply IH. }
    rewrite Hfs.
    destruct (get_loop fs _ _ _ (List.filter _ files) [] 0%Z []) as [r1 lg1].
    destruct (get_loop fs _ _ _ files [] 0%Z []) as [r2 lg2].
    simpl in Hskip. subst r2.
    destruct r1 as [[scr v]|e]; [|reflexivity].
    destruct (matchVersion _ _ _); reflexivity.
  - vm_compute. reflexivity.
Qed.

(** The example directory: of its three candidates only the one of the
    format is selected. *)
Lemma C2_discovery_witness :
  ReadDir example_fs (scriptsDir example_launcher "ArtifactInstall")
    = DirEntries example_art_dir
  /\ selects_exact_format example_launcher example_fs "ArtifactInstall" "Leave"
       example_art_dir.
Proof.
  split; [reflexivity|].
  exact (proj1 (proj2 (C2_discovery_exact_format example_launcher example_fs
                         "ArtifactInstall" "Leave" example_art_dir eq_refl))).
Defined.

(** The older draft of [get] has no format check: it selects all three
    names of the example directory. *)
Lemma get_draft_selects_malformed :
  get_draft example_launcher example_fs "ArtifactInstall" "Leave"
  = Ok ([ {| Name := "ArtifactInstall_Leave"; Mode := 493 |};
          {| Name := "ArtifactInstall_Leave_100"; Mode := 493 |};
          {| Name := "ArtifactInstall_Leave_10_wifi-driver"; Mode := 493 |} ],
        "/art").
Proof. vm_compute. reflexivity. Qed.

End DiscoveryFacts.

(** ** Script execution and retry-later records *)

Module ExecuteFacts.
Import GoInt GoIntFacts GoTime GoStrings Statescript.
Local Open Scope Z_scope.

(** On success the record of the script is gone, whether or not there
    was one. *)
Lemma remove_if_present (db : gmap string RetryLaterContext) name :
  match ReadAll db name with
  | Some _ => Remove db name
  | None => db
  end = delete name db.
Proof.
  unfold ReadAll, Remove. destruct (db !! name) eqn:H; [reflexivity|].
  symmetry. apply delete_id. exact H.
Qed.


Lemma executable_land f :
  executable f = true -> (Z.land (Mode f) execBits =? 0) = false.
Proof. unfold executable. apply negb_true_iff. Qed.

(** Scripts that run and exit 0 are passed over; each loses its record. *)
Lemma loop_clean_prefix execute timeout dir state ign pre rest :
  forall db trace,
  Forall (runs_clean execute timeout dir) pre ->
  ExecuteAll_loop execute timeout dir state ign (pre ++ rest) db trace
  = ExecuteAll_loop execute timeout dir state ign rest
      (foldl (fun d f => delete (Name f) d) db pre)
      (trace ++ map (fun f => (Name f, 0)) pre).
Proof.
  induction pre as [|f pre IH]; intros db trace Hpre.
  - simpl. rewrite app_nil_r. reflexivity.
  - inversion Hpre as [|? ? [Hx Hr] Hpre']; subst.
    cbn [app ExecuteAll_loop]. rewrite (executable_land _ Hx), Hr.
    cbn [Z.eqb negb]. rewrite remove_if_present, IH by assumption.
    cbn [foldl map]. rewrite <- app_assoc. reflexivity.
Qed.




(** With errors ignored the loop never returns an error and never adds
    or changes a record. *)
Lemma loop_ignoring execute timeout dir state scr :
  forall db trace,
  let out := ExecuteAll_loop execute timeout dir state true scr db trace in
  returned out = None /\ db_after out ⊆ db.
Proof.
  induction scr as [|s scr IH]; intros db trace; cbn zeta.
  - split; reflexivity.
  - cbn [ExecuteAll_loop]. destruct (Z.land (Mode s) execBits =? 0); [apply IH|].
    destruct (negb (ret (execute (Join dir (Name s)) timeout) =? 0));
      rewrite remove_if_present;
      (destruct (IH (delete (Name s) db)
                    (trace ++ [(Name s, ret (execute (Join dir (Name s)) timeout))]))
         as [Hr Hs]; split; [exact Hr|];
       etrans; [exact Hs|apply delete_subseteq]).
Qed.





(** The removal also follows a failure that is ignored: with errors
    ignored a script exiting 1 loses the record it had. *)
Lemma ignored_failure_removes_record :
  db_after (ExecuteAll example_launcher example_fs failing_run
              (Some {[ "ArtifactInstall_Leave_10_wifi-driver" :=
                         {| State := "ArtifactInstall"; LatestExecTime := 0;
                            TotDuration := Second |} ]})
              "ArtifactInstall" "Leave" true)
  !! "ArtifactInstall_Leave_10_wifi-driver" = None.
Proof. vm_compute. reflexivity. Qed.

(** C5 (as stated, refuted): with errors ignored a script exiting -2
    within the budget neither gets a record nor makes [ExecuteAll] return
    [ErrRetryLater]; the call returns nil. *)
Lemma C5_counterexample_retry_ignored : ~ retry_later_honoured_when_ignoring.
Proof.
  intros H.
  specialize (H example_launcher example_fs retry_run ∅
                "ArtifactInstall" "Leave" "/art"
                {| Name := "ArtifactInstall_Leave_10_wifi-driver"; Mode := 493 |}
                [format_warning "ArtifactInstall_Leave";
                 format_warning "ArtifactInstall_Leave_100"]).
  destruct H as [Hret _].
  - vm_compute. reflexivity.
  - reflexivity.
  - reflexivity.
  - vm_compute. discriminate.
  - vm_compute in Hret. discriminate Hret.
Qed.

(** C5 (amended): with errors ignored and the store open, [ExecuteAll]
    returns nil whatever happens: scripts that are not executable,
    errors of the discovery or of the version, and any non-zero exit,
    -2 (exit-retry-later) included.  It never returns [ErrRetryLater]
    and never creates or updates a record. *)
Theorem C5_ignore_error_returns_nil (l : Launcher) (fs : FileSystem)
    (execute : string -> Z -> Run) (db : gmap string RetryLaterContext)
    (state action : string) :
  let out := ExecuteAll l fs execute (Some db) state action true in
  returned out = None /\ db_after out ⊆ db.
Proof.
  cbv zeta. unfold ExecuteAll.
  destruct (get l fs state action) as [[[scr dir]|e] log]; cbn [fst].
  - apply loop_ignoring.
  - split; reflexivity.
Qed.

End ExecuteFacts.

(** ** Partition numbers *)

Module NumberFacts.
Import GoInt GoStrings StringFacts.
Local Open Scope Z_scope.

Lemma TrimRight_digits_cons c s :
  TrimRight_digits (String c s)
  = match TrimRight_digits s with
    | EmptyString => if is_digit c then EmptyString else String c EmptyString
    | t => String c t
    end.
Proof. reflexivity. Qed.

(** [trailing_digits] is the longest run of decimal digits that ends the
    string: the string is what [TrimRight] keeps followed by it, it holds
    digits only, and what [TrimRight] keeps does not end in a digit. *)
Lemma trailing_digits_split s :
  s = TrimRight_digits s +:+ trailing_digits s
  /\ all_chars is_digit (trailing_digits s) = true.
Proof.
  unfold trailing_digits. induction s as [|c s [IH1 IH2]]; [split; reflexivity|].
  rewrite TrimRight_digits_cons.
  destruct (TrimRight_digits s) as [|d t] eqn:Ht.
  - simpl in IH1, IH2. destruct (is_digit c) eqn:Hc; simpl.
    + rewrite Hc, IH2. split; reflexivity.
    + split; [reflexivity|exact IH2].
  - cbn [String.length drop_chars]. split; [|exact IH2].
    rewrite append_cons. f_equal. exact IH1.
Qed.

Lemma TrimRight_digits_last s : forall pre c,
  TrimRight_digits s = pre +:+ String c "" -> is_digit c = false.
Proof.
  induction s as [|c0 s IH]; intros pre c H.
  - destruct pre; discriminate H.
  - rewrite TrimRight_digits_cons in H.
    destruct (TrimRight_digits s) as [|d t] eqn:Ht.
    + destruct (is_digit c0) eqn:Hc0.
      * destruct pre; discriminate H.
      * destruct pre as [|x pre].
        -- rewrite append_nil_l in H. injection H as <-. exact Hc0.
        -- rewrite append_cons in H. injection H as _ H. destruct pre; discriminate H.
    + destruct pre as [|x pre].
      * rewrite append_nil_l in H. discriminate H.
      * rewrite append_cons in H. injection H as _ H. eapply IH. exact H.
Qed.

Lemma digit_value_range c : is_digit c = true -> 0 <= digit_value c <= 9.
Proof.
  unfold is_digit, in_range, digit_value. intros H.
  apply andb_prop in H as [H1 H2].
  apply N.leb_le in H1, H2. change (N_of_ascii "0") with 48%N in H1.
  change (N_of_ascii "9") with 57%N in H2. lia.
Qed.

Lemma decimal_value_nonneg s : forall acc,
  0 <= acc -> all_chars is_digit s = true -> 0 <= decimal_value acc s.
Proof.
  induction s as [|c s IH]; intros acc Hacc Hall; [exact Hacc|].
  simpl in Hall. apply andb_prop in Hall as [Hc Hall].
  apply IH; [|exact Hall]. pose proof (digit_value_range c Hc). lia.
Qed.

(** [Atoi] on a non-empty string of digits: its value if it fits. *)
Lemma Atoi_digits s :
  s <> "" -> all_chars is_digit s = true ->
  Atoi s = if decimal_value 0 s <=? int64_max then Some (decimal_value 0 s) else None.
Proof.
  intros Hne Hall. destruct s as [|c d]; [contradiction|].
  pose proof (decimal_value_nonneg _ 0 (Z.le_refl 0) Hall) as Hv.
  unfold Atoi. simpl in Hall. apply andb_prop in Hall as [Hc Hd].
  assert (Hplus : Ascii.eqb c "+" = false).
  { apply Ascii.eqb_neq. intros ->. discriminate Hc. }
  assert (Hminus : Ascii.eqb c "-" = false).
  { apply Ascii.eqb_neq. intros ->. discriminate Hc. }
  rewrite Hplus, Hminus. cbn [all_chars]. rewrite Hc, Hd. cbn [andb].
  assert (Hlo : (- 2 ^ 63 <=? decimal_value 0 (String c d)) = true)
    by (apply Z.leb_le; lia).
  rewrite Hlo. reflexivity.
Qed.

Lemma Atoi_empty : Atoi "" = None.
Proof. reflexivity. Qed.

End NumberFacts.

(** ** Hexadecimal rendering *)

Module HexFacts.
Import GoInt GoStrings Device.
Local Open Scope Z_scope.

Lemma hex_digit_value_digit d :
  0 <= d < 16 -> hex_digit_value (hex_digit d) = d.
Proof.
  intros Hd.
  assert (Hcases : d = 0 \/ d = 1 \/ d = 2 \/ d = 3 \/ d = 4 \/ d = 5 \/ d = 6
                   \/ d = 7 \/ d = 8 \/ d = 9 \/ d = 10 \/ d = 11 \/ d = 12
                   \/ d = 13 \/ d = 14 \/ d = 15) by lia.
  repeat (destruct Hcases as [->|Hcases]; [reflexivity|]). subst d. reflexivity.
Qed.

Lemma hex_digits_value fuel : forall n acc,
  0 <= n < 16 ^ Z.of_nat fuel ->
  hex_value 0 (hex_digits fuel n acc) = hex_value n acc.
Proof.
  induction fuel as [|fuel IH]; intros n acc Hn.
  - simpl in Hn. assert (n = 0) as -> by lia. reflexivity.
  - rewrite Nat2Z.inj_succ, Z.pow_succ_r in Hn by lia.
    pose proof (Z.mod_pos_bound n 16 ltac:(lia)) as Hmod.
    pose proof (Z.div_mod n 16 ltac:(lia)) as Hdm.
    cbn [hex_digits]. destruct (n / 16 =? 0) eqn:Hq.
    + apply Z.eqb_eq in Hq. cbn [hex_value].
      rewrite hex_digit_value_digit by lia. f_equal. lia.
    + rewrite IH.
      * cbn [hex_value]. rewrite hex_digit_value_digit by lia. f_equal. lia.
      * split; [apply Z.div_pos; lia|].
        apply Z.div_lt_upper_bound; lia.
Qed.

(** The rendering reads back as the number. *)
Lemma FormatHexUpper_value n :
  0 <= n <= int64_max -> hex_value 0 (FormatHexUpper n) = n.
Proof.
  intros Hn. unfold FormatHexUpper.
  replace (n <? 0) with false by (symmetry; apply Z.ltb_ge; lia).
  rewrite hex_digits_value; [reflexivity|].
  unfold int64_max in Hn. change (16 ^ Z.of_nat 16) with (2 ^ 64). lia.
Qed.

Lemma hex_digit_upper d : 0 <= d < 16 -> is_upper_hex (hex_digit d) = true.
Proof.
  intros Hd.
  assert (Hcases : d = 0 \/ d = 1 \/ d = 2 \/ d = 3 \/ d = 4 \/ d = 5 \/ d = 6
                   \/ d = 7 \/ d = 8 \/ d = 9 \/ d = 10 \/ d = 11 \/ d = 12
                   \/ d = 13 \/ d = 14 \/ d = 15) by lia.
  repeat (destruct Hcases as [->|Hcases]; [reflexivity|]). subst d. reflexivity.
Qed.

Lemma hex_digits_upper fuel : forall n acc,
  0 <= n -> all_chars is_upper_hex acc = true ->
  all_chars is_upper_hex (hex_digits fuel n acc) = true.
Proof.
  induction fuel as [|fuel IH]; intros n acc Hn Hacc; [exact Hacc|].
  pose proof (Z.mod_pos_bound n 16 ltac:(lia)) as Hmod.
  cbn [hex_digits].
  assert (Hacc' : all_chars is_upper_hex (String (hex_digit (n mod 16)) acc) = true).
  { cbn [all_chars]. rewrite hex_digit_upper, Hacc by lia. reflexivity. }
  destruct (n / 16 =? 0); [exact Hacc'|].
  apply IH; [apply Z.div_pos; lia|exact Hacc'].
Qed.

(** The rendering uses the digits 0-9 and A-F only. *)
Lemma FormatHexUpper_upper n :
  0 <= n -> all_chars is_upper_hex (FormatHexUpper n) = true.
Proof.
  intros Hn. unfold FormatHexUpper.
  replace (n <? 0) with false by (symmetry; apply Z.ltb_ge; lia).
  apply hex_digits_upper; [exact Hn|reflexivity].
Qed.

End HexFacts.

(** ** Bootloader environment and partitions *)

Module DeviceFacts.
Import GoInt GoStrings StringFacts NumberFacts HexFacts Device.
Local Open Scope Z_scope.

Section WithEnv.
Context {E : Type} `{BootEnvReadWriter E}.

(** [HasUpdate] answers true exactly on a successful read that yields
    upgrade_available = "1". *)
Lemma HasUpdate_true (env : E) :
  HasUpdate env = (true, None)
  <-> exists vars, ReadEnv env ["upgrade_available"] = Ok vars
                   /\ vars !! "upgrade_available" = Some "1".
Proof.
  unfold HasUpdate, index. split.
  - destruct (ReadEnv env ["upgrade_available"]) as [vars|e]; [|discriminate].
    destruct (vars !! "upgrade_available") as [v|] eqn:Hv; simpl.
    + destruct (String.eqb v "1") eqn:Hv1; [|discriminate].
      apply String.eqb_eq in Hv1 as ->. eauto.
    + discriminate.
  - intros (vars & -> & ->). reflexivity.
Qed.

(** Any other value, an absent or an empty one included, gives false
    and no error. *)
Lemma HasUpdate_false (env : E) vars :
  ReadEnv env ["upgrade_available"] = Ok vars ->
  vars !! "upgrade_available" <> Some "1" ->
  HasUpdate env = (false, None).
Proof.
  unfold HasUpdate, index. intros -> Hne.
  destruct (vars !! "upgrade_available") as [v|]; simpl; [|reflexivity].
  destruct (String.eqb v "1") eqn:Hv1; [|reflexivity].
  apply String.eqb_eq in Hv1 as ->. contradiction.
Qed.

Lemma HasUpdate_error (env : E) e :
  ReadEnv env ["upgrade_available"] = Err e ->
  HasUpdate env = (false, Some (Wrap e "failed to read environment variable")).
Proof. unfold HasUpdate. intros ->. reflexivity. Qed.

End WithEnv.

(** C6 (as stated, refuted): with upgrade_available = "1" in an
    environment that refuses writes, [HasUpdate] answers true and
    [CommitUpdate] fails with the error of the write. *)
Lemma C6_counterexample_write_fails : ~ commit_succeeds_iff_has_update.
Proof.
  intros Hclaim.
  destruct (Hclaim MapEnv MapEnv_BootEnv env_upgrade_readonly) as [_ Hback].
  assert (Hhas : HasUpdate env_upgrade_readonly = (true, None))
    by (vm_compute; reflexivity).
  destruct (Hback Hhas) as [Hok _]. vm_compute in Hok. discriminate Hok.
Qed.

(** C6 (amended): [CommitUpdate] makes the one call
    [WriteEnv({upgrade_available: "0"})] exactly when [HasUpdate]
    answered true, and returns what that call returns, so it succeeds if
    and only if [HasUpdate] is true and the write succeeds; when
    [HasUpdate] answers false without error it returns
    [errorNoUpgradeMounted] and writes nothing; when [HasUpdate] fails it
    returns that error and writes nothing.  [HasUpdate] answers true if
    and only if the read of the environment succeeds and yields
    upgrade_available = "1"; any other value yields false without
    error. *)
Theorem C6_commit_update {E : Type} `{BootEnvReadWriter E} (env : E) :
  (HasUpdate env = (true, None) ->
     CommitUpdate env = WriteEnv env (<["upgrade_available" := "0"]> ∅))
  /\ (HasUpdate env = (false, None) ->
        CommitUpdate env = (Some errorNoUpgradeMounted, env))
  /\ (forall e, (HasUpdate env).2 = Some e -> CommitUpdate env = (Some e, env))
  /\ ((CommitUpdate env).1 = None
      <-> HasUpdate env = (true, None)
          /\ (WriteEnv env (<["upgrade_available" := "0"]> ∅)).1 = None)
  /\ (HasUpdate env = (true, None)
      <-> exists vars, ReadEnv env ["upgrade_available"] = Ok vars
                       /\ vars !! "upgrade_available" = Some "1")
  /\ (forall vars, ReadEnv env ["upgrade_available"] = Ok vars ->
        vars !! "upgrade_available" <> Some "1" ->
        HasUpdate env = (false, None)).
Proof.
  split; [|split; [|split; [|split; [|split]]]].
  - unfold CommitUpdate. intros ->. reflexivity.
  - unfold CommitUpdate. intros ->. reflexivity.
  - unfold CommitUpdate. destruct (HasUpdate env) as [b err]. simpl.
    intros e ->. reflexivity.
  - unfold CommitUpdate. destruct (HasUpdate env) as [[] [e|]]; simpl.
    + split; [discriminate|]. intros [Heq _]. discriminate Heq.
    + tauto.
    + split; [discriminate|]. intros [Heq _]. discriminate Heq.
    + split; [discriminate|]. intros [Heq _]. discriminate Heq.
  - apply HasUpdate_true.
  - apply HasUpdate_false.
Qed.

(** With upgrade_available = "1" the commit is the write of "0". *)
Lemma C6_commit_witness :
  CommitUpdate {| vars := {[ "upgrade_available" := "1" ]}; read_fault := None;
                  write_fault := None |}
  = WriteEnv {| vars := {[ "upgrade_available" := "1" ]}; read_fault := None;
                write_fault := None |} (<["upgrade_available" := "0"]> ∅).
Proof.
  apply (proj1 (C6_commit_update
                  {| vars := {[ "upgrade_available" := "1" ]}; read_fault := None;
                     write_fault := None |})).
  vm_compute. reflexivity.
Defined.

(** C8 (as stated, refuted): a path that ends in twenty digits has
    trailing digits, yet the operation fails and writes nothing, because
    the number does not fit an [int]. *)
Lemma C8_counterexample_number_too_large : ~ enable_writes_for_trailing_digits.
Proof.
  intros Hclaim.
  destruct (Hclaim MapEnv MapEnv_BootEnv root_on_p3 env_boot_p3
              {| rootfsPartA := None; rootfsPartB := None; active := None;
                 inactive := Some {| Path := "/dev/mmcblk0p99999999999999999999" |} |}
              {| rootfsPartA := None; rootfsPartB := None; active := None;
                 inactive := Some {| Path := "/dev/mmcblk0p99999999999999999999" |} |}
              {| Path := "/dev/mmcblk0p99999999999999999999" |}
              eq_refl) as [hex Hhex].
  - vm_compute. discriminate.
  - apply (f_equal (fun r => r.1.1)) in Hhex. vm_compute in Hhex.
    discriminate Hhex.
Qed.

(** C8 (amended): with [digits] the longest trailing run of decimal
    digits of the path of the inactive partition, if [digits] is not
    empty and its value [n] fits an [int], [EnableUpdatedPartition]
    makes one call of [WriteEnv] with upgrade_available = "1",
    bootcount = "0", mender_boot_part = [digits] and
    mender_boot_part_hex = [n] in upper-case hexadecimal, and returns
    what the call returns; if [digits] is empty, or its value does not
    fit an [int], it fails with "Invalid inactive partition" and writes
    nothing. *)
Theorem C8_enable_updated_partition {E : Type} `{BootEnvReadWriter E}
    (sys : System) (env : E) (p p' : partitions) (part : partition) :
  GetInactive sys env p = (Ok part, p') ->
  let digits := trailing_digits (Path part) in
  let n := decimal_value 0 digits in
  (Path part = TrimRight_digits (Path part) +:+ digits
   /\ all_chars is_digit digits = true
   /\ forall pre c, TrimRight_digits (Path part) = pre +:+ String c "" ->
                    is_digit c = false)
  /\ (digits <> "" -> n <= int64_max ->
      EnableUpdatedPartition sys env p
      = (let '(err, env') := WriteEnv env (enable_vars digits (FormatHexUpper n)) in
         (err, env', p'))
      /\ hex_value 0 (FormatHexUpper n) = n
      /\ all_chars is_upper_hex (FormatHexUpper n) = true)
  /\ (digits = "" \/ int64_max < n ->
      EnableUpdatedPartition sys env p
      = (Some (New ("Invalid inactive partition: " +:+ Path part)), env, p')).
Proof.
  intros Hget digits n.
  destruct (trailing_digits_split (Path part)) as [Hsplit Hall].
  fold digits in Hsplit, Hall.
  assert (Hn : 0 <= n) by (apply decimal_value_nonneg; [lia|exact Hall]).
  split; [|split].
  - split; [exact Hsplit|]. split; [exact Hall|]. apply TrimRight_digits_last.
  - intros Hne Hfit. split; [|split].
    + unfold EnableUpdatedPartition, getInactivePartition. rewrite Hget.
      fold digits. rewrite (Atoi_digits digits Hne Hall). fold n.
      replace (n <=? int64_max) with true by (symmetry; apply Z.leb_le; exact Hfit).
      reflexivity.
    + apply FormatHexUpper_value. lia.
    + apply FormatHexUpper_upper. exact Hn.
  - intros Hbad. unfold EnableUpdatedPartition, getInactivePartition. rewrite Hget.
    fold digits. destruct (string_dec digits "") as [Hd|Hd].
    + rewrite Hd. reflexivity.
    + rewrite (Atoi_digits digits Hd Hall). fold n.
      destruct Hbad as [Hbad|Hbad]; [contradiction|].
      replace (n <=? int64_max) with false by (symmetry; apply Z.leb_gt; exact Hbad).
      reflexivity.
Qed.

(** Partition 12 is written as "12" and "C". *)
Lemma C8_enable_witness :
  EnableUpdatedPartition root_on_p3 env_boot_p3
    {| rootfsPartA := None; rootfsPartB := None; active := None;
       inactive := Some {| Path := "/dev/mmcblk0p12" |} |}
  = (None,
     {| vars := enable_vars "12" "C" ∪ vars env_boot_p3; read_fault := None;
        write_fault := None |},
     {| rootfsPartA := None; rootfsPartB := None; active := None;
        inactive := Some {| Path := "/dev/mmcblk0p12" |} |}).
Proof.
  refine (eq_trans (proj1 (proj1 (proj2 (C8_enable_updated_partition
            root_on_p3 env_boot_p3
            {| rootfsPartA := None; rootfsPartB := None; active := None;
               inactive := Some {| Path := "/dev/mmcblk0p12" |} |}
            {| rootfsPartA := None; rootfsPartB := None; active := None;
               inactive := Some {| Path := "/dev/mmcblk0p12" |} |}
            {| Path := "/dev/mmcblk0p12" |} eq_refl))
            _ _)) _).
  - vm_compute. discriminate.
  - vm_compute. discriminate.
  - reflexivity.
Defined.

(** C10: on a device built by [NewDevice] from two valid, distinct
    paths, [GetInactive] answers rootfsPartB and [GetActive] answers
    rootfsPartA, without error and whatever the mount table, the device
    nodes and the bootloader environment say: [NewDevice] stores them as
    the cached active and inactive partitions and both getters return
    the cached value. *)
Theorem C10_new_device_caches (sys : System) (config : deviceConfig)
    (p : partitions) :
  NewDevice sys config = Ok p ->
  config_rootfsPartA config <> config_rootfsPartB config ->
  forall (E : Type) (H : BootEnvReadWriter E) (sys' : System) (env : E),
    GetInactive sys' env p = (Ok {| Path := config_rootfsPartB config |}, p)
    /\ GetActive sys' env p = (Ok {| Path := config_rootfsPartA config |}, p)
    /\ rootfsPartA p = Some {| Path := config_rootfsPartA config |}
    /\ rootfsPartB p = Some {| Path := config_rootfsPartB config |}.
Proof.
  unfold NewDevice, NewPartition. intros Hnew _ E H sys' env.
  destruct (String.eqb (config_rootfsPartA config) ""); [discriminate|].
  destruct (NewBlockDevice_error sys (config_rootfsPartA config)); [discriminate|].
  destruct (String.eqb (config_rootfsPartB config) ""); [discriminate|].
  destruct (NewBlockDevice_error sys (config_rootfsPartB config)); [discriminate|].
  injection Hnew as <-. repeat split; reflexivity.
Qed.

(** On a system whose root is mounted from /dev/mmcblk0p3, configured as
    rootfsPartB, the discovery finds /dev/mmcblk0p3 active, and the
    device built by [NewDevice] answers /dev/mmcblk0p2. *)
Lemma C10_new_device_witness :
  (getAndCacheActivePartition root_on_p3 env_boot_p3
     {| rootfsPartA := Some {| Path := "/dev/mmcblk0p2" |};
        rootfsPartB := Some {| Path := "/dev/mmcblk0p3" |};
        active := None; inactive := None |}).1
  = Ok {| Path := "/dev/mmcblk0p3" |}
  /\ GetActive root_on_p3 env_boot_p3
       {| rootfsPartA := Some {| Path := "/dev/mmcblk0p2" |};
          rootfsPartB := Some {| Path := "/dev/mmcblk0p3" |};
          active := Some {| Path := "/dev/mmcblk0p2" |};
          inactive := Some {| Path := "/dev/mmcblk0p3" |} |}
     = (Ok {| Path := "/dev/mmcblk0p2" |},
        {| rootfsPartA := Some {| Path := "/dev/mmcblk0p2" |};
           rootfsPartB := Some {| Path := "/dev/mmcblk0p3" |};
           active := Some {| Path := "/dev/mmcblk0p2" |};
           inactive := Some {| Path := "/dev/mmcblk0p3" |} |}).
Proof.
  split; [vm_compute; reflexivity|].
  refine (proj1 (proj2 (C10_new_device_caches root_on_p3 config_p2_p3 _ eq_refl _
                          MapEnv MapEnv_BootEnv root_on_p3 env_boot_p3))).
  vm_compute. discriminate.
Defined.

Section Uncached.
Context {E : Type} `{BootEnvReadWriter E}.

(** With nothing cached as inactive, [GetInactive] does what its errors
    announce. *)
Lemma GetInactive_uncached (sys : System) (env : E) (p : partitions) :
  inactive p = None ->
  (rootfsPartA p = None \/ rootfsPartB p = None ->
     (GetInactive sys env p).1 = Err ErrorPartitionNumberNotSet)
  /\ (forall a b, rootfsPartA p = Some a -> rootfsPartB p = Some b ->
        (Path a = Path b -> (GetInactive sys env p).1 = Err ErrorPartitionNumberSame)
        /\ (Path a <> Path b ->
            forall act p', GetActive sys env p = (Ok act, p') ->
              (Path act = Path a -> (GetInactive sys env p).1 = Ok b)
              /\ (Path act = Path b -> (GetInactive sys env p).1 = Ok a)
              /\ (Path act <> Path a -> Path act <> Path b ->
                  (GetInactive sys env p).1 = Err ErrorPartitionNoMatchActive))).
Proof.
  intros Hin. unfold GetInactive, getAndCacheInactivePartition. rewrite Hin.
  split.
  - intros [-> | ->]; [reflexivity|]. destruct (rootfsPartA p); reflexivity.
  - intros a b -> ->. split.
    + intros Hab. apply String.eqb_eq in Hab. rewrite Hab. reflexivity.
    + intros Hab act p' Hact. apply String.eqb_neq in Hab. rewrite Hab, Hact.
      split; [|split].
      * intros Ha. apply String.eqb_eq in Ha. rewrite Ha. reflexivity.
      * intros Hb. assert (Ha : String.eqb (Path act) (Path a) = false).
        { apply String.eqb_neq. rewrite Hb. apply String.eqb_neq.
          rewrite String.eqb_sym. exact Hab. }
        apply String.eqb_eq in Hb. rewrite Ha, Hb. reflexivity.
      * intros Ha Hb. apply String.eqb_neq in Ha, Hb. rewrite Ha, Hb. reflexivity.
Qed.

End Uncached.

(** C7 (the code departs from it): on the device that [NewDevice] builds
    [GetInactive] returns the cached rootfsPartB.  With the root mounted
    from rootfsPartB it returns that active partition; with rootfsPartA
    equal to rootfsPartB it returns the partition and not
    [ErrorPartitionNumberSame]; and an unset path fails in [NewDevice]
    with "partition has no path", not [ErrorPartitionNumberNotSet]. *)
Theorem C7_precached_inactive :
  (exists p,
      NewDevice root_on_p3 config_p2_p3 = Ok p
      /\ (getAndCacheActivePartition root_on_p3 env_boot_p3
            {| rootfsPartA := rootfsPartA p; rootfsPartB := rootfsPartB p;
               active := None; inactive := None |}).1
         = Ok {| Path := "/dev/mmcblk0p3" |}
      /\ (GetInactive root_on_p3 env_boot_p3 p).1 = Ok {| Path := "/dev/mmcblk0p3" |})
  /\ (exists p,
        NewDevice root_on_p3
          {| config_rootfsPartA := "/dev/mmcblk0p2";
             config_rootfsPartB := "/dev/mmcblk0p2" |} = Ok p
        /\ (GetInactive root_on_p3 env_boot_p3 p).1 = Ok {| Path := "/dev/mmcblk0p2" |})
  /\ NewDevice root_on_p3
       {| config_rootfsPartA := ""; config_rootfsPartB := "/dev/mmcblk0p3" |}
     = Err (Wrap (New "partition has no path") "failed to initialize rootfsPartA").
Proof.
  split; [|split].
  - eexists. split; [reflexivity|]. split; vm_compute; reflexivity.
  - eexists. split; [reflexivity|]. vm_compute. reflexivity.
  - reflexivity.
Qed.

End DeviceFacts.

(** ** The update-status request *)

Module ClientFacts.
Import GoStrings Client.
Local Open Scope Z_scope.

Lemma Submit_success NewRequest_error (api : Request -> Response + string)
    server data :
  Submit NewRequest_error api server data = None
  <-> exists req r,
        makeUpdateStatusRequest NewRequest_error server data = inl req
        /\ api req = inl r /\ StatusCode r = 200.
Proof.
  unfold Submit, StatusOK. split.
  - destruct (makeUpdateStatusRequest NewRequest_error server data) as [req|e];
      [|discriminate].
    destruct (api req) as [r|cause] eqn:Hapi; [|discriminate].
    destruct (StatusCode r =? 200) eqn:Hc; [|discriminate].
    intros _. exists req, r. repeat split; [exact Hapi|]. apply Z.eqb_eq. exact Hc.
  - intros (req & r & -> & -> & Hr). rewrite Hr. reflexivity.
Qed.

(** C9 (the code departs from it): the request is a PATCH whose body
    has the members client_state, script_name (when not empty) and
    script_status, and the submission succeeds exactly on a response of
    status 200; but the URL does not carry the deployment ID: for every
    deployment it is {server}/api/devices/v1/device/deployments/{10}/status,
    with the placeholder "10" in braces and without the segment
    "deployments/", whereas the log upload builds its URL from the ID. *)
Theorem C9_status_url_placeholder :
  (forall NewRequest_error server data req,
      makeUpdateStatusRequest NewRequest_error server data = inl req ->
      Method req = "PATCH"
      /\ URL req = buildURL server +:+ "/api/devices/v1/device/deployments/{10}/status"
      /\ Body req = json_members data)
  /\ makeUpdateStatusRequest (fun _ => None) "https://mender.example"
       {| State := "Sync"; ScriptName := ""; Status := StateEntered |}
     = inl {| Method := "PATCH";
              URL := "https://mender.example/api/devices/v1/device/deployments/{10}/status";
              Body := [("client_state", "Sync"); ("script_status", "state-entered")];
              Header := [("Content-Type", "application/json")] |}
  /\ spec_status_url "https://mender.example" "d1"
     = "https://mender.example/api/devices/v1/deployments/device/deployments/d1/status"
  /\ "https://mender.example/api/devices/v1/device/deployments/{10}/status"
     <> spec_status_url "https://mender.example" "d1"
  /\ logUploadURL "https://mender.example" "d1"
     = "https://mender.example/api/devices/v1/deployments/device/deployments/d1/log"
  /\ (forall NewRequest_error api server data,
        Submit NewRequest_error api server data = None
        <-> exists req r,
              makeUpdateStatusRequest NewRequest_error server data = inl req
              /\ api req = inl r /\ StatusCode r = 200).
Proof.
  split; [|split; [|split; [|split; [|split]]]].
  - intros NewRequest_error server data req. unfold makeUpdateStatusRequest.
    destruct (NewRequest_error _); [discriminate|].
    intros [= <-]. repeat split; reflexivity.
  - vm_compute. reflexivity.
  - vm_compute. reflexivity.
  - vm_compute. discriminate.
  - vm_compute. reflexivity.
  - apply Submit_success.
Qed.

End ClientFacts.

(** ** Back-off: the closed form of the schedule *)

Module BackoffSchedule.
Import GoInt GoIntFacts GoTime Backoff BackoffFacts.
Local Open Scope Z_scope.

Lemma unit_value : exponentialBackoffSmallestUnit = 60000000000.
Proof. reflexivity. Qed.

Lemma geb_true a b : b <= a -> (a >=? b) = true.
Proof. intros H. rewrite Z.geb_leb. apply Z.leb_le. exact H. Qed.

Lemma geb_false a b : a < b -> (a >=? b) = false.
Proof. intros H. rewrite Z.geb_leb. apply Z.leb_gt. exact H. Qed.

Lemma pow2_succ (m : nat) : 2 ^ Z.of_nat (S m) = 2 * 2 ^ Z.of_nat m.
Proof. rewrite Nat2Z.inj_succ, Z.pow_succ_r by lia. reflexivity. Qed.

Lemma pow2_le (a b : nat) : (a <= b)%nat -> 2 ^ Z.of_nat a <= 2 ^ Z.of_nat b.
Proof. intros Hab. apply Z.pow_le_mono_r; lia. Qed.

Lemma pow2_pos (a : nat) : 1 <= 2 ^ Z.of_nat a.
Proof. apply (pow2_le 0 a). lia. Qed.

(** From iteration [m] on, with [j] the first doubling that reaches the
    cap and [k] the number of whole groups of three attempts made. *)
Lemma backoff_loop_closed (d : nat) : forall (m j k : nat) fuel tried maxInterval i r,
  (m + d = j)%nat -> (d < fuel)%nat ->
  tried = 3 * Z.of_nat k + r -> 0 <= r < 3 -> tried <= int64_max ->
  exponentialBackoffSmallestUnit <= maxInterval <= maxSafeInterval ->
  maxInterval <= exponentialBackoffSmallestUnit * 2 ^ Z.of_nat j ->
  (j = 0%nat \/ exponentialBackoffSmallestUnit * 2 ^ Z.of_nat (j - 1) < maxInterval) ->
  (m = 0%nat \/ (i = exponentialBackoffSmallestUnit * 2 ^ Z.of_nat (m - 1)
                 /\ (m - 1 <= k)%nat)) ->
  backoff_loop fuel tried maxInterval (3 * Z.of_nat m) i
    (exponentialBackoffSmallestUnit * 2 ^ Z.of_nat m)
  = if (k <? j)%nat then Some (exponentialBackoffSmallestUnit * 2 ^ Z.of_nat k, None)
    else if (k =? j)%nat then Some (maxInterval, None)
    else Some (0, Some ErrTriedMax).
Proof.
  pose proof unit_value as Hu.
  induction d as [|d IH]; intros m j k fuel tried maxInterval i r
    Hmd Hfuel Htried Hr Hfit Hmax Hj Hjfirst Hinv;
    (destruct fuel as [|fuel]; [lia|]); cbn [backoff_loop];
    destruct (3 * Z.of_nat m <=? tried) eqn:Hc;
    [apply Z.leb_le in Hc | apply Z.leb_gt in Hc
    |apply Z.leb_le in Hc | apply Z.leb_gt in Hc].
  - (* the cap is reached at this iteration *)
    assert (m = j) as -> by lia.
    replace (_ >=? maxInterval) with true by (symmetry; apply geb_true; lia).
    replace (k <? j)%nat with false by (symmetry; apply Nat.ltb_ge; lia).
    rewrite int64_wrap_id
      by (unfold in_int64, int64_min, int64_max in *; lia).
    unfold perIntervalAttempts.
    destruct (k =? j)%nat eqn:Hkj.
    + apply Nat.eqb_eq in Hkj. subst k.
      replace (tried - 3 * Z.of_nat j >=? 3) with false
        by (symmetry; apply geb_false; lia).
      replace (maxInterval <? exponentialBackoffSmallestUnit) with false
        by (symmetry; apply Z.ltb_ge; lia).
      reflexivity.
    + apply Nat.eqb_neq in Hkj.
      replace (tried - 3 * Z.of_nat j >=? 3) with true
        by (symmetry; apply geb_true; lia).
      reflexivity.
  - (* the attempts end before the cap is reached *)
    assert (m = j) as -> by lia.
    destruct Hinv as [-> | [-> Hk]]; [lia|].
    assert (k = (j - 1)%nat) as -> by lia.
    replace (j - 1 <? j)%nat with true by (symmetry; apply Nat.ltb_lt; lia).
    reflexivity.
  - (* below the cap: double and go on *)
    assert (Hjpos : j <> 0%nat) by lia.
    destruct Hjfirst as [? | Hbelow]; [contradiction|].
    pose proof (pow2_le m (j - 1) ltac:(lia)) as Hmono.
    assert (Hn : exponentialBackoffSmallestUnit * 2 ^ Z.of_nat m < maxInterval) by nia.
    assert (Hm27 : (m < 27)%nat).
    { destruct (Nat.lt_ge_cases m 27) as [|Hge]; [assumption|exfalso].
      pose proof (pow2_le 27 m Hge) as H27. unfold maxSafeInterval in Hmax.
      change (Z.of_nat 27) with 27 in H27. nia. }
    pose proof (pow2_le (S m) 27 ltac:(lia)) as Hs27.
    change (Z.of_nat 27) with 27 in Hs27.
    replace (_ >=? maxInterval) with false by (symmetry; apply geb_false; lia).
    unfold perIntervalAttempts.
    rewrite (int64_wrap_id (3 * Z.of_nat m + 3))
      by (unfold in_int64, int64_min, int64_max; lia).
    rewrite (int64_wrap_id (exponentialBackoffSmallestUnit * 2 ^ Z.of_nat m * 2))
      by (unfold in_int64, int64_min, int64_max; pose proof (pow2_pos m);
          rewrite pow2_succ in Hs27; nia).
    replace (3 * Z.of_nat m + 3) with (3 * Z.of_nat (S m)) by lia.
    replace (exponentialBackoffSmallestUnit * 2 ^ Z.of_nat m * 2)
      with (exponentialBackoffSmallestUnit * 2 ^ Z.of_nat (S m))
      by (rewrite pow2_succ; lia).
    apply (IH (S m) j k fuel tried maxInterval _ r); try assumption; try lia.
    right. split; [|lia]. replace (S m - 1)%nat with m by lia. reflexivity.
  - (* the attempts end well before the cap *)
    destruct Hinv as [-> | [-> Hk]]; [lia|].
    assert (k = (m - 1)%nat) as -> by lia.
    replace (m - 1 <? j)%nat with true by (symmetry; apply Nat.ltb_lt; lia).
    reflexivity.
Qed.

(** X1: the schedule in closed form.  With [tried = 3k + r], [r] in
    0..2, and [j] the least number of doublings of the base unit that
    reaches the cap, the function answers the unit doubled [k] times
    while [k < j], the cap when [k = j], and the error afterwards. *)
Theorem backoff_closed_form (fuel : nat) (tried maxInterval k r j : Z) :
  (28 <= fuel)%nat ->
  tried = 3 * k + r -> 0 <= k -> 0 <= r < 3 -> tried <= int64_max ->
  exponentialBackoffSmallestUnit <= maxInterval <= maxSafeInterval ->
  0 <= j ->
  maxInterval <= exponentialBackoffSmallestUnit * 2 ^ j ->
  (j = 0 \/ exponentialBackoffSmallestUnit * 2 ^ (j - 1) < maxInterval) ->
  GetExponentialBackoffTime fuel tried maxInterval
  = if k <? j then Some (exponentialBackoffSmallestUnit * 2 ^ k, None)
    else if k =? j then Some (maxInterval, None)
    else Some (0, Some ErrTriedMax).
Proof.
  intros Hfuel Htried Hk Hr Hfit Hmax Hj Hcap Hfirst.
  pose proof unit_value as Hu.
  assert (Hj27 : j <= 27).
  { destruct Hfirst as [-> | Hlt]; [lia|].
    destruct (Z.le_gt_cases j 27) as [|Hgt]; [assumption|exfalso].
    assert (2 ^ 27 <= 2 ^ (j - 1)) by (apply Z.pow_le_mono_r; lia).
    unfold maxSafeInterval in Hmax. nia. }
  unfold GetExponentialBackoffTime.
  pose proof (backoff_loop_closed (Z.to_nat j) 0 (Z.to_nat j) (Z.to_nat k)
                fuel tried maxInterval (1 * exponentialBackoffSmallestUnit) r) as Hloop.
  rewrite !Z2Nat.id in Hloop by lia.
  change (3 * Z.of_nat 0) with 0 in Hloop.
  change (exponentialBackoffSmallestUnit * 2 ^ Z.of_nat 0)
    with (1 * exponentialBackoffSmallestUnit) in Hloop.
  rewrite Hloop; try assumption; try lia.
  - destruct (Z.ltb_spec k j), (Nat.ltb_spec (Z.to_nat k) (Z.to_nat j)); try lia;
      [reflexivity|].
    destruct (Z.eqb_spec k j), (Nat.eqb_spec (Z.to_nat k) (Z.to_nat j)); try lia;
      reflexivity.
  - destruct (Z.eq_dec j 0) as [-> | Hj0]; [left; reflexivity|].
    destruct Hfirst as [-> | Hlt]; [contradiction|right].
    replace (Z.of_nat (Z.to_nat j - 1)) with (j - 1) by lia. exact Hlt.
Qed.

(** X2: a cap below the base unit is raised to the base unit: the first
    three attempts wait the unit and the fourth gives up. *)
Theorem backoff_cap_below_unit (fuel : nat) (tried maxInterval : Z) :
  (1 <= fuel)%nat -> in_int64 tried ->
  maxInterval < exponentialBackoffSmallestUnit ->
  GetExponentialBackoffTime fuel tried maxInterval
  = if tried <? 3 then Some (exponentialBackoffSmallestUnit, None)
    else Some (0, Some ErrTriedMax).
Proof.
  intros Hfuel Ht Hmax. destruct fuel as [|fuel]; [lia|].
  unfold GetExponentialBackoffTime. cbn [backoff_loop].
  destruct (0 <=? tried) eqn:H0.
  - apply Z.leb_le in H0.
    replace (1 * exponentialBackoffSmallestUnit >=? maxInterval) with true
      by (symmetry; apply geb_true; lia).
    rewrite Z.sub_0_r, (int64_wrap_id tried Ht). unfold perIntervalAttempts.
    destruct (Z.ltb_spec tried 3).
    + replace (tried >=? 3) with false by (symmetry; apply geb_false; lia).
      replace (maxInterval <? exponentialBackoffSmallestUnit) with true
        by (symmetry; apply Z.ltb_lt; lia).
      reflexivity.
    + replace (tried >=? 3) with true by (symmetry; apply geb_true; lia).
      reflexivity.
  - apply Z.leb_gt in H0.
    replace (tried <? 3) with true by (symmetry; apply Z.ltb_lt; lia).
    reflexivity.
Qed.

Lemma backoff_closed_witness :
  GetExponentialBackoffTime 28 7 (5 * Minute)
  = Some (exponentialBackoffSmallestUnit * 2 ^ 2, None).
Proof.
  rewrite (backoff_closed_form 28 7 (5 * Minute) 2 1 3).
  - reflexivity.
  - lia.
  - reflexivity.
  - lia.
  - lia.
  - vm_compute. discriminate.
  - vm_compute. split; discriminate.
  - lia.
  - vm_compute. discriminate.
  - right. vm_compute. reflexivity.
Defined.

Lemma backoff_cap_below_unit_witness :
  GetExponentialBackoffTime 1 2 (30 * Second)
  = Some (exponentialBackoffSmallestUnit, None).
Proof.
  rewrite (backoff_cap_below_unit 1 2 (30 * Second)).
  - reflexivity.
  - lia.
  - vm_compute. split; discriminate.
  - vm_compute. reflexivity.
Defined.

End BackoffSchedule.

(** ** The API requester, error bodies and the log upload *)

Module ClientApiFacts.
Import GoStrings StringFacts Client ClientApi.
Local Open Scope Z_scope.

Lemma HasPrefix_append prefix s : HasPrefix (prefix +:+ s) prefix = true.
Proof. unfold HasPrefix. apply prefix_spec. eauto. Qed.

(** X3: [buildURL] answers a URL with a scheme, and leaves such a URL as
    it is. *)
Theorem buildURL_scheme_idempotent (server : string) :
  (HasPrefix (buildURL server) "https://" || HasPrefix (buildURL server) "http://")
  = true
  /\ buildURL (buildURL server) = buildURL server.
Proof.
  assert (Hscheme : (HasPrefix (buildURL server) "https://"
                     || HasPrefix (buildURL server) "http://") = true).
  { unfold buildURL.
    destruct (HasPrefix server "https://" || HasPrefix server "http://") eqn:Hs.
    - exact Hs.
    - rewrite HasPrefix_append. reflexivity. }
  split; [exact Hscheme|].
  unfold buildURL at 1. rewrite Hscheme. reflexivity.
Qed.

(** X4: [buildApiURL] drops one leading slash of the path, so that a
    path gives the same URL with it and without it. *)
Theorem buildApiURL_leading_slash (server url : string) :
  HasPrefix url "/" = false ->
  buildApiURL server ("/" +:+ url) = buildApiURL server url
  /\ buildApiURL server url = buildURL server +:+ "/api/devices/v1/" +:+ url.
Proof.
  intros Hno. unfold buildApiURL. rewrite Hno.
  replace (HasPrefix ("/" +:+ url) "/") with true
    by (symmetry; apply HasPrefix_append).
  split; reflexivity.
Qed.

Lemma buildApiURL_witness :
  buildApiURL "mender.example" ("/" +:+ "inventory")
  = buildApiURL "mender.example" "inventory"
  /\ buildApiURL "mender.example" "inventory"
     = buildURL "mender.example" +:+ "/api/devices/v1/" +:+ "inventory".
Proof. apply buildApiURL_leading_slash. reflexivity. Defined.

(** X5: [getRequestErrorInfo] succeeds exactly when the body decodes and
    carries both a non-empty error and a non-empty request id; the text
    is then "error: requestID: id". *)
Theorem getRequestErrorInfo_ok (decoded : string * string + string) (info : string) :
  getRequestErrorInfo decoded = inl info
  <-> exists errorText reqID,
        decoded = inl (errorText, reqID)
        /\ errorText <> "" /\ reqID <> ""
        /\ info = errorText +:+ ": requestID: " +:+ reqID.
Proof.
  unfold getRequestErrorInfo. split.
  - destruct decoded as [[errorText reqID]|cause]; [|discriminate].
    destruct (String.eqb_spec errorText ""), (String.eqb_spec reqID "");
      cbn [negb andb]; try discriminate.
    intros [= <-]. eauto 10.
  - intros (errorText & reqID & -> & He & Hr & ->).
    apply String.eqb_neq in He, Hr. rewrite He, Hr. reflexivity.
Qed.

Lemma bearer_not_empty auth : String.eqb ("Bearer " +:+ auth) "" = false.
Proof. reflexivity. Qed.

Lemma authorize_has_authorization auth req :
  String.eqb (Header_Get (req_Header (authorize auth req)) "Authorization") "" = false.
Proof.
  unfold authorize.
  destruct (String.eqb (Header_Get (req_Header req) "Authorization") "") eqn:Hh;
    [|exact Hh].
  cbn [req_Header]. unfold Header_Get, Header_Set. rewrite lookup_insert_eq.
  apply bearer_not_empty.
Qed.

(** X6: the request [ApiRequest.Do] sends always carries an
    authorization; one that the request came with is kept, so a request
    that went through [Do], which sets the header on the request itself,
    is sent with its first token when it goes through [Do] again with
    another one; no other header and nothing else of the request is
    changed. *)
Theorem authorize_fills_once (auth : string) (req : HttpRequest) :
  Header_Get (req_Header (authorize auth req)) "Authorization" <> ""
  /\ (Header_Get (req_Header req) "Authorization" <> "" -> authorize auth req = req)
  /\ (Header_Get (req_Header req) "Authorization" = "" ->
      Header_Get (req_Header (authorize auth req)) "Authorization"
      = "Bearer " +:+ auth)
  /\ (forall (R : Type) (api : HttpRequest -> R) auth',
        ApiRequest_Do api auth' (authorize auth req) = ApiRequest_Do api auth req)
  /\ (forall key, key <> "Authorization" ->
        req_Header (authorize auth req) !! key = req_Header req !! key)
  /\ req_Method (authorize auth req) = req_Method req
  /\ req_URL (authorize auth req) = req_URL req
  /\ req_Body (authorize auth req) = req_Body req.
Proof.
  split; [|split; [|split; [|split; [|split]]]].
  - apply String.eqb_neq, authorize_has_authorization.
  - intros Hh. unfold authorize. apply String.eqb_neq in Hh. rewrite Hh. reflexivity.
  - intros Hh. unfold authorize. rewrite Hh. cbn.
    unfold Header_Get, Header_Set. rewrite lookup_insert_eq. reflexivity.
  - intros R api auth'. unfold ApiRequest_Do. f_equal. unfold authorize at 1.
    rewrite authorize_has_authorization. reflexivity.
  - intros key Hkey. unfold authorize.
    destruct (String.eqb _ ""); [|reflexivity].
    cbn [req_Header]. unfold Header_Set. apply lookup_insert_ne. congruence.
  - unfold authorize. destruct (String.eqb _ ""); repeat split; reflexivity.
Qed.

(** X7: the log upload is a PUT to
    {server}/api/devices/v1/deployments/device/deployments/{id}/log for
    the deployment ID of the logs, with the compressed messages as its
    body and the content encoding gzip; it succeeds exactly when the
    request is built and answered with status 204. *)
Theorem log_upload_request (gzip : string -> string + string)
    (NewRequest_error : string -> option string)
    (api : HttpRequest -> Response + string) (server : string) (logs : LogData) :
  (forall req,
      makeLogUploadRequest gzip NewRequest_error server logs = inl req ->
      req_Method req = "PUT"
      /\ req_URL req
         = buildURL server +:+ "/api/devices/v1/deployments/device/deployments/"
             +:+ DeploymentID logs +:+ "/log"
      /\ gzip (Messages logs) = inl (req_Body req)
      /\ Header_Get (req_Header req) "Content-Encoding" = "gzip"
      /\ Header_Get (req_Header req) "Content-Type" = "application/json")
  /\ (Upload gzip NewRequest_error api server logs = None
      <-> exists req r,
            makeLogUploadRequest gzip NewRequest_error server logs = inl req
            /\ api req = inl r /\ StatusCode r = 204).
Proof.
  split.
  - intros req. unfold makeLogUploadRequest.
    destruct (gzip (Messages logs)) as [buf|cause] eqn:Hz; [|discriminate].
    destruct (NewRequest_error _); [discriminate|].
    intros [= <-]. cbn [req_Method req_URL req_Body req_Header].
    split; [reflexivity|]. split.
    { unfold buildApiURL.
      replace (HasPrefix _ "/") with true by reflexivity.
      reflexivity. }
    split; [reflexivity|]. split; reflexivity.
  - unfold Upload, StatusNoContent. split.
    + destruct (makeLogUploadRequest gzip NewRequest_error server logs) as [req|e];
        [|discriminate].
      destruct (api req) as [r|cause] eqn:Hapi; [|discriminate].
      destruct (StatusCode r =? 204) eqn:Hc; [|discriminate].
      intros _. exists req, r. repeat split; [exact Hapi|]. apply Z.eqb_eq. exact Hc.
    + intros (req & r & -> & -> & Hr). rewrite Hr. reflexivity.
Qed.

End ClientApiFacts.

(** ** The launcher: order, versions, and what a pass runs *)

Module LauncherFacts.
Import GoInt GoIntFacts GoTime GoStrings StringFacts Statescript StatescriptVersion.
Import DiscoveryFacts ExecuteFacts.
Local Open Scope Z_scope.

Lemma StronglySorted_filter {A : Type} (R : A -> A -> Prop) (f : A -> bool) l :
  StronglySorted R l -> StronglySorted R (List.filter f l).
Proof.
  induction 1 as [|a l Hs IH Hall]; simpl; [constructor|].
  destruct (f a); [|exact IH].
  constructor; [exact IH|].
  rewrite List.Forall_forall in *. intros x Hx.
  apply filter_In in Hx as [Hx _]. apply Hall. exact Hx.
Qed.

Lemma NoDup_map_filter {A B : Type} (g : A -> B) (f : A -> bool) l :
  NoDup (map g l) -> NoDup (map g (List.filter f l)).
Proof.
  induction l as [|a l IH]; simpl; intros Hnd; [constructor|].
  apply NoDup_cons in Hnd as [Hnin Hnd].
  destruct (f a); [|apply IH; exact Hnd].
  simpl. apply NoDup_cons. split; [|apply IH; exact Hnd].
  intros Hin. apply Hnin.
  apply list_elem_of_In, in_map_iff in Hin as (x & Hx & Hin).
  apply filter_In in Hin as [Hin _].
  apply list_elem_of_In, in_map_iff. eauto.
Qed.

(** X8: the scripts [get] returns are the entries of the directory that
    pass its two tests, in the order of the listing: a listing sorted by
    name gives scripts sorted by name, and distinct names stay
    distinct. *)
Theorem get_keeps_listing_order (l : Launcher) (fs : FileSystem)
    (state action : string) (files scripts : list FileInfo) (dir : string)
    (log : list string) :
  ReadDir fs (scriptsDir l state) = DirEntries files ->
  get l fs state action = (Ok (scripts, dir), log) ->
  scripts = List.filter (selected state action) files
  /\ dir = scriptsDir l state
  /\ (forall R : FileInfo -> FileInfo -> Prop,
        StronglySorted R files -> StronglySorted R scripts)
  /\ (NoDup (map Name files) -> NoDup (map Name scripts)).
Proof.
  intros Hdir Hget. unfold get in Hget. rewrite Hdir in Hget.
  destruct (get_loop _ _ _ _ files [] 0 []) as [[[scr v]|e] lg] eqn:Hloop;
    [|discriminate].
  destruct (matchVersion _ _ _); [discriminate|].
  injection Hget as <- <- <-.
  apply get_loop_spec in Hloop as [-> ->]. cbn [app].
  split; [reflexivity|]. split; [reflexivity|]. split.
  - intros R. apply StronglySorted_filter.
  - apply NoDup_map_filter.
Qed.

Lemma get_keeps_order_witness :
  (get example_launcher example_fs "ArtifactInstall" "Leave").1
  = Ok (List.filter (selected "ArtifactInstall" "Leave") example_art_dir, "/art").
Proof.
  destruct (get example_launcher example_fs "ArtifactInstall" "Leave")
    as [[[scripts dir]|e] log] eqn:Hget; [|vm_compute in Hget; discriminate Hget].
  destruct (get_keeps_listing_order example_launcher example_fs
              "ArtifactInstall" "Leave" example_art_dir scripts dir log
              eq_refl Hget) as (-> & -> & _).
  reflexivity.
Defined.

(** When nothing passes the tests, the loop of [get] ends with no script
    and only a failure to read the version file can stop it. *)
Lemma get_loop_nothing_selected fs sDir state action files :
  forall v0 log0,
  (forall f, In f files -> selected state action f = false) ->
  (forall f, In f files -> Name f = "version" ->
     exists v, readVersion fs (Join sDir (Name f)) = inl v) ->
  exists v log, get_loop fs sDir state action files [] v0 log0 = (Ok ([], v), log).
Proof.
  induction files as [|file files IH]; intros v0 log0 Hsel Hver; [cbn; eauto|].
  cbn [get_loop].
  assert (Hread : exists v',
             (if String.eqb (Name file) "version"
              then match readVersion fs (Join sDir (Name file)) with
                   | inl v => Ok v
                   | inr cause => Err (ErrReadVersionFile cause)
                   end
              else Ok v0) = Ok v').
  { destruct (String.eqb_spec (Name file) "version") as [Hn|Hn]; [|eauto].
    destruct (Hver file (or_introl eq_refl) Hn) as [v Hv]. rewrite Hv. eauto. }
  destruct Hread as [v' ->].
  pose proof (Hsel file (or_introl eq_refl)) as Hfile. unfold selected in Hfile.
  destruct (candidate state action file); cbn [andb] in Hfile.
  - rewrite Hfile. apply IH; intros f Hf; [apply Hsel|apply Hver]; right; exact Hf.
  - apply IH; intros f Hf; [apply Hsel|apply Hver]; right; exact Hf.
Qed.

(** X9: with no script to run the version does not matter: when no entry
    of the directory passes the tests of [get] and the version file, if
    there is one, can be read, [get] succeeds with no script whatever
    the version and the supported versions, and [ExecuteAll] returns nil,
    runs nothing and leaves the store as it is. *)
Theorem no_scripts_no_version_check (l : Launcher) (fs : FileSystem)
    (execute : string -> Z -> Run) (db : gmap string RetryLaterContext)
    (state action : string) (files : list FileInfo) (ignoreError : bool) :
  ReadDir fs (scriptsDir l state) = DirEntries files ->
  (forall f, In f files -> selected state action f = false) ->
  (forall f, In f files -> Name f = "version" ->
     exists v, readVersion fs (Join (scriptsDir l state) (Name f)) = inl v) ->
  (get l fs state action).1 = Ok ([], scriptsDir l state)
  /\ ExecuteAll l fs execute (Some db) state action ignoreError
     = {| returned := None; db_after := db; executed := [] |}.
Proof.
  intros Hdir Hsel Hver.
  assert (Hget : (get l fs state action).1 = Ok ([], scriptsDir l state)).
  { unfold get. rewrite Hdir.
    destruct (get_loop_nothing_selected fs (scriptsDir l state) state action files
                0 [] Hsel Hver) as (v & log & ->).
    reflexivity. }
  split; [exact Hget|]. unfold ExecuteAll. rewrite Hget. reflexivity.
Qed.

Lemma no_scripts_witness :
  ExecuteAll example_launcher example_fs failing_run (Some ∅) "ArtifactCommit" "Enter"
    false
  = {| returned := None; db_after := ∅; executed := [] |}.
Proof.
  apply (no_scripts_no_version_check example_launcher example_fs failing_run ∅
           "ArtifactCommit" "Enter" example_art_dir false eq_refl).
  - intros f Hf. cbn in Hf.
    repeat (destruct Hf as [<-|Hf]; [vm_compute; reflexivity|]). destruct Hf.
  - intros f _ _. exists 2. reflexivity.
Defined.

(** Without an entry named "version" the loop of [get] keeps version 0. *)
Lemma get_loop_no_version_file fs sDir state action files :
  forall scripts0 v0 log0,
  (forall f, In f files -> Name f <> "version") ->
  exists log,
    get_loop fs sDir state action files scripts0 v0 log0
    = (Ok (scripts0 ++ List.filter (selected state action) files, v0), log).
Proof.
  induction files as [|file files IH]; intros scripts0 v0 log0 Hno.
  - cbn. rewrite app_nil_r. eauto.
  - cbn [get_loop List.filter].
    pose proof (Hno file (or_introl eq_refl)) as Hfile.
    apply String.eqb_neq in Hfile. rewrite Hfile. unfold selected.
    assert (Hrest : forall f, In f files -> Name f <> "version")
      by (intros f Hf; apply Hno; right; exact Hf).
    destruct (candidate state action file); cbn [andb]; [|apply IH; exact Hrest].
    destruct (full_match (Name file)).
    + destruct (IH (scripts0 ++ [file]) v0 log0 Hrest) as [log ->].
      rewrite <- app_assoc. eauto.
    + apply IH. exact Hrest.
Qed.

(** X10: scripts without a version file.  [CheckRootfsScriptsVersion]
    accepts a missing version file whatever the directory holds, while
    [get] on a listing with a script to run and no entry "version"
    compares version 0 and fails unless 0 is supported. *)
Theorem missing_version_file (l : Launcher) (fs : FileSystem)
    (readVersionFile : string -> VersionRead) (state action : string)
    (files : list FileInfo) (file : FileInfo) :
  readVersionFile (Join (RootfsScriptsPath l) "version") = VersionNotExist ->
  ReadDir fs (scriptsDir l state) = DirEntries files ->
  (forall f, In f files -> Name f <> "version") ->
  In file files -> selected state action file = true ->
  ~ In 0 (SupportedScriptVersions l) ->
  CheckRootfsScriptsVersion l readVersionFile = None
  /\ (get l fs state action).1
     = Err (ErrVersionMismatch (SupportedScriptVersions l) 0).
Proof.
  intros Hmissing Hdir Hno Hin Hsel Hzero. split.
  - unfold CheckRootfsScriptsVersion. rewrite Hmissing. reflexivity.
  - unfold get. rewrite Hdir.
    destruct (get_loop_no_version_file fs (scriptsDir l state) state action files
                [] 0 [] Hno) as [log ->].
    cbn [app]. unfold matchVersion.
    assert (Hlen : Nat.eqb (length (List.filter (selected state action) files)) 0
                   = false).
    { apply Nat.eqb_neq. intros Hlen. apply length_zero_iff_nil in Hlen.
      assert (Hf : In file (List.filter (selected state action) files))
        by (apply filter_In; auto).
      rewrite Hlen in Hf. destruct Hf. }
    rewrite Hlen. cbn [negb].
    assert (Hex : existsb (fun v => v =? 0) (SupportedScriptVersions l) = false).
    { apply not_true_is_false. intros Hex. apply existsb_exists in Hex as (v & Hv & Heq).
      apply Z.eqb_eq in Heq. subst v. contradiction. }
    rewrite Hex. reflexivity.
Qed.

Lemma missing_version_file_witness :
  CheckRootfsScriptsVersion example_launcher (fun _ => VersionNotExist) = None
  /\ (get example_launcher
        {| ReadDir := fun _ =>
             DirEntries [ {| Name := "Sync_Enter_01"; Mode := 493 |} ];
           readVersion := fun _ => inr "no such file" |}
        "Sync" "Enter").1
     = Err (ErrVersionMismatch [2; 3] 0).
Proof.
  apply (missing_version_file example_launcher _ (fun _ => VersionNotExist)
           "Sync" "Enter" [ {| Name := "Sync_Enter_01"; Mode := 493 |} ]
           {| Name := "Sync_Enter_01"; Mode := 493 |}).
  - reflexivity.
  - reflexivity.
  - intros f [<-|[]]. discriminate.
  - left. reflexivity.
  - vm_compute. reflexivity.
  - cbn. intros [H|[H|[]]]; discriminate H.
Defined.

(** X11: [CheckRootfsScriptsVersion] passes exactly when the version file
    is missing or holds a supported version; an unreadable file and an
    unsupported version are errors. *)
Theorem CheckRootfsScriptsVersion_passes (l : Launcher)
    (readVersionFile : string -> VersionRead) :
  CheckRootfsScriptsVersion l readVersionFile = None
  <-> readVersionFile (Join (RootfsScriptsPath l) "version") = VersionNotExist
      \/ exists ver,
           readVersionFile (Join (RootfsScriptsPath l) "version") = VersionIs ver
           /\ In ver (SupportedScriptVersions l).
Proof.
  unfold CheckRootfsScriptsVersion.
  destruct (readVersionFile (Join (RootfsScriptsPath l) "version")) as [ver| |cause].
  - destruct (existsb (fun v => v =? ver) (SupportedScriptVersions l)) eqn:Hex.
    + split; [|reflexivity]. intros _. right. exists ver. split; [reflexivity|].
      apply existsb_exists in Hex as (v & Hv & Heq). apply Z.eqb_eq in Heq.
      subst v. exact Hv.
    + split; [discriminate|]. intros [H|(v & [= <-] & Hin)]; [discriminate|].
      assert (existsb (fun v => v =? ver) (SupportedScriptVersions l) = true).
      { apply existsb_exists. exists ver. split; [exact Hin|apply Z.eqb_refl]. }
      congruence.
  - split; [auto|reflexivity].
  - split; [discriminate|]. intros [H|(v & H & _)]; discriminate.
Qed.

End LauncherFacts.

(** ** The launcher: what a pass of [ExecuteAll] runs *)

Module ExecuteAllFacts.
Import GoInt GoIntFacts GoTime GoStrings StringFacts Statescript.
Import ExecuteFacts.
Local Open Scope Z_scope.

(** A pass that returns nil with errors not ignored met executable
    scripts exiting 0 only. *)
Lemma loop_nil_all_clean execute timeout dir state scr :
  forall db trace,
  returned (ExecuteAll_loop execute timeout dir state false scr db trace) = None ->
  Forall (runs_clean execute timeout dir) scr.
Proof.
  induction scr as [|s scr IH]; intros db trace Hret; [constructor|].
  cbn [ExecuteAll_loop] in Hret.
  destruct (Z.land (Mode s) execBits =? 0) eqn:Hx; [discriminate Hret|].
  destruct (ret (execute (Join dir (Name s)) timeout) =? 0) eqn:H0;
    cbn [negb] in Hret.
  - constructor; [|eapply IH; exact Hret].
    split; [unfold executable; rewrite Hx; reflexivity|].
    apply Z.eqb_eq. exact H0.
  - destruct (ret (execute (Join dir (Name s)) timeout) =? exitRetryLater).
    + destruct (handleRetryLaterError _ _ _ _ _). discriminate Hret.
    + discriminate Hret.
Qed.

(** X12: with errors not ignored [ExecuteAll] returns nil exactly when
    every script [get] selected is executable and exits 0; it has then
    run all of them, in order, and removed the record of each. *)
Theorem ExecuteAll_nil_iff_all_clean (l : Launcher) (fs : FileSystem)
    (execute : string -> Z -> Run) (db : gmap string RetryLaterContext)
    (state action dir : string) (scr : list FileInfo) :
  (get l fs state action).1 = Ok (scr, dir) ->
  let out := ExecuteAll l fs execute (Some db) state action false in
  (returned out = None <-> Forall (runs_clean execute (getTimeout l) dir) scr)
  /\ (returned out = None ->
      executed out = map (fun f => (Name f, 0)) scr
      /\ db_after out = foldl (fun d f => delete (Name f) d) db scr).
Proof.
  intros Hget out. subst out. unfold ExecuteAll. rewrite Hget.
  assert (Hclean : Forall (runs_clean execute (getTimeout l) dir) scr ->
            ExecuteAll_loop execute (getTimeout l) dir state false scr db []
            = {| returned := None;
                 db_after := foldl (fun d f => delete (Name f) d) db scr;
                 executed := map (fun f => (Name f, 0)) scr |}).
  { intros Hall. rewrite <- (app_nil_r scr) at 1.
    rewrite loop_clean_prefix by exact Hall. reflexivity. }
  split; [split|].
  - apply loop_nil_all_clean.
  - intros Hall. rewrite (Hclean Hall). reflexivity.
  - intros Hret. apply loop_nil_all_clean in Hret.
    rewrite (Hclean Hret). split; reflexivity.
Qed.

Lemma ExecuteAll_nil_witness :
  let out := ExecuteAll example_launcher example_fs
               (fun _ _ => {| ret := 0; execTime := 1000; elapsed := Second |})
               (Some ∅) "ArtifactInstall" "Leave" false in
  returned out = None
  /\ executed out = [("ArtifactInstall_Leave_10_wifi-driver", 0)].
Proof.
  assert (H := ExecuteAll_nil_iff_all_clean example_launcher example_fs
           (fun _ _ => {| ret := 0; execTime := 1000; elapsed := Second |}) ∅
           "ArtifactInstall" "Leave" "/art"
           [ {| Name := "ArtifactInstall_Leave_10_wifi-driver"; Mode := 493 |} ]
           eq_refl).
  cbv zeta in H. cbv zeta. destruct H as [[_ Hnil] Hrun].
  assert (Hret : returned
            (ExecuteAll example_launcher example_fs
               (fun _ _ => {| ret := 0; execTime := 1000; elapsed := Second |})
               (Some ∅) "ArtifactInstall" "Leave" false) = None).
  { apply Hnil. constructor; [|constructor]. split; reflexivity. }
  split; [exact Hret|]. apply (Hrun Hret).
Defined.

(** With errors ignored the loop runs the executable scripts, each once
    and in order, whatever they exit with, and removes their records. *)
Lemma loop_ignoring_trace execute timeout dir state scr :
  forall db trace,
  ExecuteAll_loop execute timeout dir state true scr db trace
  = {| returned := None;
       db_after := foldl (fun d f => delete (Name f) d) db
                     (List.filter executable scr);
       executed := trace
                   ++ map (fun f => (Name f, ret (execute (Join dir (Name f)) timeout)))
                        (List.filter executable scr) |}.
Proof.
  induction scr as [|s scr IH]; intros db trace.
  - cbn. rewrite app_nil_r. reflexivity.
  - cbn [ExecuteAll_loop List.filter].
    replace (executable s) with (negb (Z.land (Mode s) execBits =? 0))
      by reflexivity.
    destruct (Z.land (Mode s) execBits =? 0); cbn [negb]; [apply IH|].
    destruct (negb (ret (execute (Join dir (Name s)) timeout) =? 0));
      rewrite remove_if_present, IH; cbn [foldl map];
      rewrite <- app_assoc; reflexivity.
Qed.

(** X13: with errors ignored [ExecuteAll] runs every executable script
    that [get] selected, in order and whatever the earlier ones exited
    with, skips the others, returns nil, and leaves the store without the
    records of the scripts it ran. *)
Theorem ExecuteAll_ignoring_runs_all (l : Launcher) (fs : FileSystem)
    (execute : string -> Z -> Run) (db : gmap string RetryLaterContext)
    (state action dir : string) (scr : list FileInfo) :
  (get l fs state action).1 = Ok (scr, dir) ->
  ExecuteAll l fs execute (Some db) state action true
  = {| returned := None;
       db_after := foldl (fun d f => delete (Name f) d) db
                     (List.filter executable scr);
       executed := map (fun f => (Name f,
                                  ret (execute (Join dir (Name f)) (getTimeout l))))
                     (List.filter executable scr) |}.
Proof.
  intros Hget. unfold ExecuteAll. rewrite Hget. apply loop_ignoring_trace.
Qed.

Lemma ExecuteAll_ignoring_witness :
  let out := ExecuteAll example_launcher example_fs failing_run (Some ∅)
               "ArtifactInstall" "Leave" true in
  returned out = None
  /\ executed out = [("ArtifactInstall_Leave_10_wifi-driver", 1)].
Proof.
  cbv zeta.
  rewrite (ExecuteAll_ignoring_runs_all example_launcher example_fs failing_run ∅
             "ArtifactInstall" "Leave" "/art"
             [ {| Name := "ArtifactInstall_Leave_10_wifi-driver"; Mode := 493 |} ]
             eq_refl).
  split; reflexivity.
Defined.

(** X14: with errors not ignored the first script that is not executable
    or exits with a code other than 0 and -2 ends the pass: the scripts
    after it are not run, the error names it, and the store has lost the
    records of the scripts before it and nothing else. *)
Theorem ExecuteAll_stops_at_first_failure (l : Launcher) (fs : FileSystem)
    (execute : string -> Z -> Run) (db : gmap string RetryLaterContext)
    (state action dir : string) (pre post : list FileInfo) (s : FileInfo) :
  (get l fs state action).1 = Ok (pre ++ s :: post, dir) ->
  Forall (runs_clean execute (getTimeout l) dir) pre ->
  let r := execute (Join dir (Name s)) (getTimeout l) in
  executable s = false \/ (ret r <> 0 /\ ret r <> exitRetryLater) ->
  ExecuteAll l fs execute (Some db) state action false
  = {| returned := Some (if executable s then ErrExecuting (Name s) (ret r)
                         else ErrNotExecutable (Join dir (Name s)));
       db_after := foldl (fun d f => delete (Name f) d) db pre;
       executed := map (fun f => (Name f, 0)) pre
                   ++ (if executable s then [(Name s, ret r)] else []) |}.
Proof.
  intros Hget Hpre r Hfail. unfold ExecuteAll. rewrite Hget.
  rewrite loop_clean_prefix by exact Hpre. cbn [ExecuteAll_loop app].
  unfold executable in *. fold r.
  destruct (Z.land (Mode s) execBits =? 0); cbn [negb] in *.
  - rewrite app_nil_r. reflexivity.
  - destruct Hfail as [Hx|[H0 H2]]; [discriminate Hx|].
    apply Z.eqb_neq in H0, H2. rewrite H0, H2. reflexivity.
Qed.

Lemma ExecuteAll_stops_witness :
  ExecuteAll example_launcher
    {| ReadDir := fun _ =>
         DirEntries [ {| Name := "Sync_Enter_01"; Mode := 493 |};
                      {| Name := "Sync_Enter_02"; Mode := 493 |};
                      {| Name := "version"; Mode := 420 |} ];
       readVersion := fun _ => inl 2 |}
    failing_run (Some ∅) "Sync" "Enter" false
  = {| returned := Some (ErrExecuting "Sync_Enter_01" 1); db_after := ∅;
       executed := [("Sync_Enter_01", 1)] |}.
Proof.
  assert (H := ExecuteAll_stops_at_first_failure example_launcher
           {| ReadDir := fun _ =>
                DirEntries [ {| Name := "Sync_Enter_01"; Mode := 493 |};
                             {| Name := "Sync_Enter_02"; Mode := 493 |};
                             {| Name := "version"; Mode := 420 |} ];
              readVersion := fun _ => inl 2 |}
           failing_run ∅ "Sync" "Enter" "/rootfs" []
           [ {| Name := "Sync_Enter_02"; Mode := 493 |} ]
           {| Name := "Sync_Enter_01"; Mode := 493 |}).
  cbv zeta in H. apply H.
  - vm_compute. reflexivity.
  - constructor.
  - right. split; discriminate.
Defined.






End ExecuteAllFacts.

(** ** Partitions: discovery, caching and the update cycle *)

Module PartitionFacts.
Import GoInt GoStrings StringFacts NumberFacts HexFacts Device DeviceInstall.
Import DeviceFacts.
Local Open Scope Z_scope.

Lemma substring_zero s : forall n, substring n 0 s = "".
Proof.
  induction s as [|c s IH]; intros [|n]; try reflexivity. simpl. apply IH.
Qed.

Lemma substring_whole s : substring 0 (String.length s) s = s.
Proof.
  induction s as [|c s IH]; [reflexivity|]. simpl. rewrite IH. reflexivity.
Qed.

Lemma substring_skip a b :
  substring (String.length a) (String.length b) (a +:+ b) = b.
Proof.
  induction a as [|c a IH]; [rewrite append_nil_l; apply substring_whole|].
  rewrite append_cons. simpl. exact IH.
Qed.

(** [strings.HasSuffix(s, "")] holds of every [s]. *)
Lemma HasSuffix_empty s : HasSuffix s "" = true.
Proof.
  unfold HasSuffix. simpl. rewrite substring_zero. reflexivity.
Qed.

Lemma HasSuffix_append a b : HasSuffix (a +:+ b) b = true.
Proof.
  unfold HasSuffix. rewrite length_append.
  replace (String.length a + String.length b - String.length b)%nat
    with (String.length a) by lia.
  rewrite substring_skip, String.eqb_refl, andb_true_r.
  apply Nat.leb_le. lia.
Qed.

Lemma Split_field a b sep :
  all_chars (fun c => negb (Ascii.eqb c sep)) a = true ->
  Split (a +:+ String sep b) sep = a :: Split b sep.
Proof.
  induction a as [|c a IH]; intros Hall.
  - rewrite append_nil_l. simpl. rewrite Ascii.eqb_refl. reflexivity.
  - simpl in Hall. apply andb_prop in Hall as [Hc Hall].
    apply negb_true_iff in Hc. rewrite append_cons. simpl.
    rewrite Hc, (IH Hall). reflexivity.
Qed.

Lemma Split_first a b sep :
  all_chars (fun c => negb (Ascii.eqb c sep)) a = true ->
  exists hd tl, Split (a +:+ b) sep = (a +:+ hd) :: tl.
Proof.
  induction a as [|c a IH]; intros Hall.
  - rewrite append_nil_l. destruct b as [|d b]; simpl; [eauto|].
    destruct (Ascii.eqb d sep); [eauto|].
    destruct (Split b sep); eauto.
  - simpl in Hall. apply andb_prop in Hall as [Hc Hall].
    apply negb_true_iff in Hc. destruct (IH Hall) as (hd & tl & Heq).
    rewrite append_cons. simpl. rewrite Hc, Heq. exists hd, tl. reflexivity.
Qed.

(** X18: a line of the output of mount that names the root, first in the
    output, gives its device: for a device name without space or newline
    [getRootCandidateFromMount] of "<device> on / ..." is the device. *)
Theorem mount_line_gives_device (dev rest : string) :
  all_chars (fun c => negb (Ascii.eqb c " ")) dev = true ->
  all_chars (fun c => negb (Ascii.eqb c newline)) dev = true ->
  getRootCandidateFromMount (dev +:+ " on / " +:+ rest) = dev.
Proof.
  intros Hsp Hnl. unfold getRootCandidateFromMount.
  assert (Hline : all_chars (fun c => negb (Ascii.eqb c newline)) (dev +:+ " on / ")
                  = true).
  { rewrite all_chars_append, Hnl. reflexivity. }
  destruct (Split_first (dev +:+ " on / ") rest newline Hline) as (hd & tl & Heq).
  rewrite append_assoc in Heq. rewrite Heq. cbn [rootCandidate].
  rewrite append_assoc.
  change (" on / " +:+ hd)
    with (String " " ("on" +:+ String " " ("/" +:+ String " " hd))).
  rewrite (Split_field dev _ " " Hsp).
  rewrite (Split_field "on" _ " " eq_refl).
  rewrite (Split_field "/" _ " " eq_refl).
  destruct (Split hd " "); reflexivity.
Qed.

Lemma mount_line_witness :
  getRootCandidateFromMount
    ("/dev/mmcblk0p3" +:+ " on / " +:+ "type ext4 (rw)") = "/dev/mmcblk0p3".
Proof.
  apply (mount_line_gives_device "/dev/mmcblk0p3" "type ext4 (rw)");
    reflexivity.
Defined.

Lemma getRootFromMountedDevices_found sys devices root d :
  getRootFromMountedDevices sys devices root = Ok d ->
  In d devices /\ isMountedRoot sys d root = true.
Proof.
  induction devices as [|device devices IH]; simpl; [discriminate|].
  destruct (isMountedRoot sys device root) eqn:Hm.
  - intros [= <-]. split; [left; reflexivity|exact Hm].
  - intros Hd. destruct (IH Hd) as [Hin Hroot]. split; [right|]; assumption.
Qed.

Section WithEnv.
Context {E : Type} `{BootEnvReadWriter E}.

Lemma cache_active_ok sys p path a p' :
  cache_active sys p path = (Ok a, p') ->
  a = {| Path := path |} /\ path <> "" /\ NewBlockDevice_error sys path = None
  /\ p' = set_active p a.
Proof.
  unfold cache_active, NewPartition.
  destruct (String.eqb_spec path "") as [->|Hne]; [discriminate|].
  destruct (NewBlockDevice_error sys path); [discriminate|].
  intros [= <- <-]. auto.
Qed.

Lemma cache_active_err sys p path e p' :
  cache_active sys p path = (Err e, p') -> p' = p.
Proof.
  unfold cache_active. destruct (NewPartition sys path); intros [= ]; congruence.
Qed.

(** What a successful discovery found. *)
Lemma discovery_found sys (env : E) p a p' :
  getAndCacheActivePartition sys env p = (Ok a, p') ->
  exists root bootPart,
    Stat sys "/" = Some root
    /\ getBootEnvActivePartition env = Ok bootPart
    /\ Path a <> ""
    /\ NewBlockDevice_error sys (Path a) = None
    /\ (isMountedRoot sys (Path a) root = true
        \/ HasSuffix (Path a) bootPart = true)
    /\ p' = set_active p a.
Proof.
  unfold getAndCacheActivePartition, getRootDevice, checkBootEnvAndRootPartitionMatch.
  destruct (mount_output sys) as [mountData|e]; [|discriminate].
  destruct (Stat sys "/") as [root|]; [|discriminate].
  destruct (getBootEnvActivePartition env) as [bootPart|e]; [|discriminate].
  set (c := getRootCandidateFromMount mountData).
  destruct (negb (String.eqb c "") && isMountedRoot sys c root) eqn:H1.
  { intros Hc. apply cache_active_ok in Hc as (-> & Hne & Hdev & ->).
    apply andb_prop in H1 as [_ H1]. exists root, bootPart. cbn [Path]. auto 10. }
  destruct (negb (String.eqb c "") && HasSuffix c bootPart) eqn:H2.
  { intros Hc. apply cache_active_ok in Hc as (-> & Hne & Hdev & ->).
    apply andb_prop in H2 as [_ H2]. exists root, bootPart. cbn [Path]. auto 10. }
  destruct (mounted_devices sys "/dev") as [devices|e]; [|discriminate].
  destruct (getRootFromMountedDevices sys devices root) as [d|e] eqn:Hd;
    [|discriminate].
  destruct (HasSuffix d bootPart) eqn:H3; [|discriminate].
  intros Hc. apply cache_active_ok in Hc as (-> & Hne & Hdev & ->).
  exists root, bootPart. cbn [Path]. auto 10.
Qed.

Lemma discovery_failed sys (env : E) p e p' :
  getAndCacheActivePartition sys env p = (Err e, p') -> p' = p.
Proof.
  unfold getAndCacheActivePartition.
  destruct (mount_output sys); [|intros [= ]; congruence].
  destruct (getRootDevice sys); [|intros [= ]; congruence].
  destruct (getBootEnvActivePartition env); [|intros [= ]; congruence].
  destruct (_ && _); [apply cache_active_err|].
  destruct (_ && _); [apply cache_active_err|].
  destruct (mounted_devices sys "/dev"); [|intros [= ]; congruence].
  destruct (getRootFromMountedDevices _ _ _); [|intros [= ]; congruence].
  destruct (checkBootEnvAndRootPartitionMatch _ _);
    [apply cache_active_err|intros [= ]; congruence].
Qed.

Lemma GetActive_ok sys (env : E) p a p' :
  GetActive sys env p = (Ok a, p') ->
  active p' = Some a /\ rootfsPartA p' = rootfsPartA p
  /\ rootfsPartB p' = rootfsPartB p /\ inactive p' = inactive p.
Proof.
  unfold GetActive. destruct (active p) as [a0|] eqn:Ha.
  - intros [= <- <-]. auto.
  - intros Hd. apply discovery_found in Hd as (_ & _ & _ & _ & _ & _ & _ & ->).
    cbn. auto.
Qed.

Lemma GetActive_err sys (env : E) p e p' :
  GetActive sys env p = (Err e, p') -> p' = p.
Proof.
  unfold GetActive. destruct (active p); [discriminate|apply discovery_failed].
Qed.

(** X19: a discovery that succeeds found a device that is the mounted
    root or whose name ends with the value of mender_boot_part: the
    partition it returns has a non-empty path for which the block device
    could be made, the root could be examined and the environment read,
    and the partition is cached as active. *)
Theorem discovery_is_checked (sys : System) (env : E) (p p' : partitions)
    (a : partition) :
  getAndCacheActivePartition sys env p = (Ok a, p') ->
  exists root bootPart,
    getRootDevice sys = Some root
    /\ getBootEnvActivePartition env = Ok bootPart
    /\ Path a <> ""
    /\ NewBlockDevice_error sys (Path a) = None
    /\ (isMountedRoot sys (Path a) root = true
        \/ checkBootEnvAndRootPartitionMatch bootPart (Path a) = true)
    /\ active p' = Some a.
Proof.
  intros Hd. apply discovery_found in Hd
    as (root & bootPart & Hroot & Hboot & Hne & Hdev & Hchk & ->).
  exists root, bootPart. auto 10.
Qed.

(** X20: without mender_boot_part the mount candidate is taken unchecked.
    When the environment can be read and does not set mender_boot_part,
    a non-empty candidate from the output of mount is returned as the
    active partition whether or not it is the mounted root. *)
Theorem unset_boot_part_accepts_candidate (sys : System) (env : E)
    (p : partitions) (vars : gmap string string) (data : string) (root : FileStat) :
  ReadEnv env ["mender_boot_part"] = Ok vars ->
  vars !! "mender_boot_part" = None ->
  mount_output sys = Ok data ->
  getRootCandidateFromMount data <> "" ->
  Stat sys "/" = Some root ->
  NewBlockDevice_error sys (getRootCandidateFromMount data) = None ->
  getAndCacheActivePartition sys env p
  = (Ok {| Path := getRootCandidateFromMount data |},
     set_active p {| Path := getRootCandidateFromMount data |}).
Proof.
  intros Hread Hvar Hmount Hne Hroot Hdev.
  unfold getAndCacheActivePartition, getRootDevice, getBootEnvActivePartition,
    checkBootEnvAndRootPartitionMatch, index.
  rewrite Hmount, Hroot, Hread, Hvar. cbn [default].
  apply String.eqb_neq in Hne. rewrite Hne, HasSuffix_empty. cbn [negb andb].
  assert (Hc : cache_active sys p (getRootCandidateFromMount data)
               = (Ok {| Path := getRootCandidateFromMount data |},
                  set_active p {| Path := getRootCandidateFromMount data |})).
  { unfold cache_active, NewPartition. rewrite Hne, Hdev. reflexivity. }
  rewrite Hc. destruct (isMountedRoot _ _ _); reflexivity.
Qed.

(** X21: [GetActive] discovers once.  After a success the partition is
    cached: every later [GetActive] returns it without looking at the
    system or the environment, and the configured partitions and the
    cached inactive one are as before.  After a failure nothing is
    cached. *)
Theorem GetActive_caches (sys : System) (env : E) (p p' : partitions)
    (r : result partition) :
  GetActive sys env p = (r, p') ->
  match r with
  | Ok a =>
      (forall sys' (env' : E), GetActive sys' env' p' = (Ok a, p'))
      /\ rootfsPartA p' = rootfsPartA p /\ rootfsPartB p' = rootfsPartB p
      /\ inactive p' = inactive p
  | Err _ => p' = p
  end.
Proof.
  destruct r as [a|e]; intros Hg.
  - apply GetActive_ok in Hg as (Ha & HA & HB & Hi).
    split; [|auto]. intros sys' env'. unfold GetActive. rewrite Ha. reflexivity.
  - eapply GetActive_err. exact Hg.
Qed.

Lemma GetInactive_ok sys (env : E) p i p' :
  GetInactive sys env p = (Ok i, p') -> inactive p' = Some i.
Proof.
  unfold GetInactive, getAndCacheInactivePartition.
  destruct (inactive p) as [i0|] eqn:Hi; [intros [= <- <-]; exact Hi|].
  destruct (rootfsPartA p) as [a|]; [|discriminate].
  destruct (rootfsPartB p) as [b|]; [|discriminate].
  destruct (String.eqb (Path a) (Path b)); [discriminate|].
  destruct (GetActive sys env p) as [[act|e] p1]; [|discriminate].
  destruct (String.eqb (Path act) (Path a)); [intros [= <- <-]; reflexivity|].
  destruct (String.eqb (Path act) (Path b)); [intros [= <- <-]; reflexivity|].
  discriminate.
Qed.

(** X22: with nothing cached as inactive, the partition [GetInactive]
    returns is the configured one that the active partition is not: it
    is rootfsPartA or rootfsPartB, its path differs from the path of the
    active partition, which is the path of the other one, and it is
    cached, so that every later [GetInactive] returns it. *)
Theorem GetInactive_is_the_other (sys : System) (env : E) (p p' : partitions)
    (i : partition) :
  inactive p = None ->
  GetInactive sys env p = (Ok i, p') ->
  exists act other,
    active p' = Some act
    /\ Path i <> Path act /\ Path other = Path act
    /\ ((rootfsPartA p = Some i /\ rootfsPartB p = Some other)
        \/ (rootfsPartA p = Some other /\ rootfsPartB p = Some i))
    /\ forall sys' (env' : E), GetInactive sys' env' p' = (Ok i, p').
Proof.
  intros Hin Hg.
  assert (Hcached : forall sys' (env' : E), GetInactive sys' env' p' = (Ok i, p')).
  { intros sys' env'. unfold GetInactive.
    rewrite (GetInactive_ok _ _ _ _ _ Hg). reflexivity. }
  unfold GetInactive, getAndCacheInactivePartition in Hg. rewrite Hin in Hg.
  destruct (rootfsPartA p) as [a|]; [|discriminate].
  destruct (rootfsPartB p) as [b|]; [|discriminate].
  destruct (String.eqb_spec (Path a) (Path b)) as [|Hab]; [discriminate|].
  destruct (GetActive sys env p) as [[act|e] p1] eqn:Hact; [|discriminate].
  apply GetActive_ok in Hact as (Ha & _).
  destruct (String.eqb_spec (Path act) (Path a)) as [Heq|Hna].
  - injection Hg as <- <-. exists act, a. cbn [active set_inactive].
    repeat split; auto; congruence.
  - destruct (String.eqb_spec (Path act) (Path b)) as [Heq|Hnb]; [|discriminate].
    injection Hg as <- <-. exists act, b. cbn [active set_inactive].
    repeat split; auto; congruence.
Qed.

(** X23: [InstallUpdate] refuses a nil image and a negative size before
    anything else, leaving the cache as it is; it makes no other use of
    the size; and when it succeeds the image went to the partition that
    is then cached as inactive, which is the one every later
    [GetInactive] returns. *)
Theorem InstallUpdate_target {I : Type} (copy : partition -> I -> option error)
    (sys : System) (env : E) (p : partitions) (image : option I) (size : Z) :
  ((image = None \/ size < 0) ->
     InstallUpdate copy sys env p image size
     = (Some (New "Have invalid update. Aborting."), p))
  /\ (forall size', 0 <= size -> 0 <= size' ->
        InstallUpdate copy sys env p image size'
        = InstallUpdate copy sys env p image size)
  /\ (forall p', InstallUpdate copy sys env p image size = (None, p') ->
        exists img part,
          image = Some img /\ copy part img = None
          /\ forall sys' (env' : E), GetInactive sys' env' p' = (Ok part, p')).
Proof.
  unfold InstallUpdate. split; [|split].
  - intros [-> | Hneg]; [reflexivity|]. destruct image; [|reflexivity].
    apply Z.ltb_lt in Hneg. rewrite Hneg. reflexivity.
  - intros size' H0 H0'. destruct image; [|reflexivity].
    assert (H1 : (size <? 0) = false) by (apply Z.ltb_ge; exact H0).
    assert (H2 : (size' <? 0) = false) by (apply Z.ltb_ge; exact H0').
    rewrite H1, H2. reflexivity.
  - intros p'. destruct image as [img|]; [|discriminate].
    destruct (size <? 0); [discriminate|].
    destruct (GetInactive sys env p) as [[part|e] p1] eqn:Hg; [|discriminate].
    destruct (copy part img) eqn:Hc; [discriminate|].
    intros [= <-]. exists img, part. split; [reflexivity|]. split; [exact Hc|].
    intros sys' env'. unfold GetInactive.
    rewrite (GetInactive_ok _ _ _ _ _ Hg). reflexivity.
Qed.

(** After a successful [EnableUpdatedPartition] or [SwapPartitions] the
    variables were written for the partition [GetInactive] answered. *)
Lemma getInactivePartition_ok sys (env : E) p dec hex p' :
  getInactivePartition sys env p = (Ok (dec, hex), p') ->
  exists part, GetInactive sys env p = (Ok part, p')
               /\ dec = trailing_digits (Path part).
Proof.
  unfold getInactivePartition.
  destruct (GetInactive sys env p) as [[part|e] p1]; [|discriminate].
  destruct (Atoi (trailing_digits (Path part))); [|discriminate].
  intros [= <- _ <-]. eauto.
Qed.

(** X24: enabling takes effect.  On an environment that reads back what
    it wrote, after a successful [EnableUpdatedPartition] [HasUpdate]
    answers true, and mender_boot_part holds the trailing digits of the
    path of the inactive partition, so that the check of the boot
    environment against the root partition accepts that partition. *)
Theorem enable_then_has_update (sys : System) (env env' : E)
    (p p' : partitions) :
  reads_back env ->
  EnableUpdatedPartition sys env p = (None, env', p') ->
  HasUpdate env' = (true, None)
  /\ exists part bootPart,
       GetInactive sys env p = (Ok part, p')
       /\ getBootEnvActivePartition env' = Ok bootPart
       /\ bootPart = trailing_digits (Path part)
       /\ checkBootEnvAndRootPartitionMatch bootPart (Path part) = true.
Proof.
  intros Hlaw Hen. unfold EnableUpdatedPartition in Hen.
  destruct (getInactivePartition sys env p) as [[[dec hex]|e] p1] eqn:Hg;
    [|discriminate].
  destruct (WriteEnv env _) as [err env1] eqn:Hw.
  injection Hen as -> -> ->.
  apply getInactivePartition_ok in Hg as (part & Hg & ->).
  split.
  - apply HasUpdate_true. apply (Hlaw _ _ Hw). apply lookup_insert_eq.
  - destruct (Hlaw _ _ Hw "mender_boot_part" (trailing_digits (Path part)))
      as (vars & Hread & Hvar).
    { rewrite lookup_insert_ne by discriminate. apply lookup_insert_eq. }
    exists part, (trailing_digits (Path part)).
    split; [exact Hg|]. split.
    + unfold getBootEnvActivePartition, index. rewrite Hread, Hvar. reflexivity.
    + split; [reflexivity|]. unfold checkBootEnvAndRootPartitionMatch.
      destruct (trailing_digits_split (Path part)) as [Hsplit _].
      rewrite Hsplit at 1. apply HasSuffix_append.
Qed.

(** X25: a commit is not repeatable.  On an environment that reads back
    what it wrote, a successful [CommitUpdate] had an update to commit,
    leaves [HasUpdate] answering false, and a second [CommitUpdate] fails
    with [errorNoUpgradeMounted] and leaves the environment alone. *)
Theorem commit_then_nothing_to_commit (env env' : E) :
  reads_back env ->
  CommitUpdate env = (None, env') ->
  HasUpdate env = (true, None)
  /\ HasUpdate env' = (false, None)
  /\ CommitUpdate env' = (Some errorNoUpgradeMounted, env').
Proof.
  intros Hlaw Hc. unfold CommitUpdate in Hc.
  destruct (HasUpdate env) as [has err] eqn:Hhas.
  destruct err as [e|]; [discriminate|].
  destruct has; [|discriminate].
  destruct (Hlaw _ _ Hc "upgrade_available" "0") as (vars & Hread & Hvar);
    [apply lookup_insert_eq|].
  assert (Hno : HasUpdate env' = (false, None)).
  { apply (HasUpdate_false env' vars Hread). rewrite Hvar. discriminate. }
  split; [reflexivity|]. split; [exact Hno|].
  unfold CommitUpdate. rewrite Hno. reflexivity.
Qed.

(** X26: a swap leaves nothing to commit.  On an environment that reads
    back what it wrote, after a successful [SwapPartitions] [HasUpdate]
    answers false and [CommitUpdate] fails with [errorNoUpgradeMounted],
    while mender_boot_part names the partition that was inactive. *)
Theorem swap_then_nothing_to_commit (sys : System) (env env' : E)
    (p p' : partitions) :
  reads_back env ->
  SwapPartitions sys env p = (None, env', p') ->
  HasUpdate env' = (false, None)
  /\ CommitUpdate env' = (Some errorNoUpgradeMounted, env')
  /\ exists part,
       GetInactive sys env p = (Ok part, p')
       /\ getBootEnvActivePartition env' = Ok (trailing_digits (Path part)).
Proof.
  intros Hlaw Hs. unfold SwapPartitions in Hs.
  destruct (getInactivePartition sys env p) as [[[dec hex]|e] p1] eqn:Hg;
    [|discriminate].
  destruct (WriteEnv env _) as [err env1] eqn:Hw.
  injection Hs as -> -> ->.
  apply getInactivePartition_ok in Hg as (part & Hg & ->).
  destruct (Hlaw _ _ Hw "upgrade_available" "0") as (vars & Hread & Hvar).
  { rewrite !lookup_insert_ne by discriminate. apply lookup_insert_eq. }
  assert (Hno : HasUpdate env' = (false, None)).
  { apply (HasUpdate_false env' vars Hread). rewrite Hvar. discriminate. }
  split; [exact Hno|]. split.
  - unfold CommitUpdate. rewrite Hno. reflexivity.
  - destruct (Hlaw _ _ Hw "mender_boot_part" (trailing_digits (Path part)))
      as (vars' & Hread' & Hvar'); [apply lookup_insert_eq|].
    exists part. split; [exact Hg|].
    unfold getBootEnvActivePartition, index. rewrite Hread', Hvar'. reflexivity.
Qed.

End WithEnv.

(** The environment of the model reads back what it wrote, when reads
    do not fail. *)
Lemma MapEnv_reads_back (e : MapEnv) : read_fault e = None -> reads_back e.
Proof.
  intros Hr m e' Hw k v Hk. cbn in Hw. unfold MapEnv_WriteEnv in Hw.
  destruct (write_fault e); [discriminate|]. injection Hw as <-.
  cbn. unfold MapEnv_ReadEnv. cbn [read_fault vars]. rewrite Hr.
  eexists. split; [reflexivity|].
  apply map_lookup_filter_Some. split.
  - apply lookup_union_Some_l. exact Hk.
  - cbn. apply list_elem_of_In. left. reflexivity.
Qed.

Lemma discovery_is_checked_witness :
  exists root bootPart,
    getRootDevice root_on_p3 = Some root
    /\ getBootEnvActivePartition env_boot_p3 = Ok bootPart
    /\ "/dev/mmcblk0p3" <> ""
    /\ NewBlockDevice_error root_on_p3 "/dev/mmcblk0p3" = None
    /\ (isMountedRoot root_on_p3 "/dev/mmcblk0p3" root = true
        \/ checkBootEnvAndRootPartitionMatch bootPart "/dev/mmcblk0p3" = true)
    /\ active (set_active partitions_p2_p3 {| Path := "/dev/mmcblk0p3" |})
       = Some {| Path := "/dev/mmcblk0p3" |}.
Proof.
  apply (discovery_is_checked root_on_p3 env_boot_p3 partitions_p2_p3
           (set_active partitions_p2_p3 {| Path := "/dev/mmcblk0p3" |})
           {| Path := "/dev/mmcblk0p3" |}).
  vm_compute. reflexivity.
Defined.

Lemma unset_boot_part_witness :
  getAndCacheActivePartition root_on_p3 env_empty partitions_p2_p3
  = (Ok {| Path := "/dev/mmcblk0p3" |},
     set_active partitions_p2_p3 {| Path := "/dev/mmcblk0p3" |}).
Proof.
  apply (unset_boot_part_accepts_candidate root_on_p3 env_empty partitions_p2_p3
           ∅ ("/dev/mmcblk0p3 on / type ext4 (rw)" +:+ String newline
              "proc on /proc type proc (rw)")
           {| IsDevice := false; Rdev := 0; Dev := 45827 |}).
  - vm_compute. reflexivity.
  - reflexivity.
  - reflexivity.
  - vm_compute. discriminate.
  - reflexivity.
  - reflexivity.
Defined.

Lemma GetActive_caches_witness :
  (forall sys' (env' : MapEnv),
      GetActive sys' env'
        (set_active partitions_p2_p3 {| Path := "/dev/mmcblk0p3" |})
      = (Ok {| Path := "/dev/mmcblk0p3" |},
         set_active partitions_p2_p3 {| Path := "/dev/mmcblk0p3" |}))
  /\ rootfsPartA (set_active partitions_p2_p3 {| Path := "/dev/mmcblk0p3" |})
     = rootfsPartA partitions_p2_p3
  /\ rootfsPartB (set_active partitions_p2_p3 {| Path := "/dev/mmcblk0p3" |})
     = rootfsPartB partitions_p2_p3
  /\ inactive (set_active partitions_p2_p3 {| Path := "/dev/mmcblk0p3" |})
     = inactive partitions_p2_p3.
Proof.
  apply (GetActive_caches root_on_p3 env_boot_p3 partitions_p2_p3
           (set_active partitions_p2_p3 {| Path := "/dev/mmcblk0p3" |})
           (Ok {| Path := "/dev/mmcblk0p3" |})).
  vm_compute. reflexivity.
Defined.

Lemma GetInactive_other_witness :
  exists act other,
    active (GetInactive root_on_p3 env_boot_p3 partitions_p2_p3).2 = Some act
    /\ "/dev/mmcblk0p2" <> Path act /\ Path other = Path act
    /\ ((rootfsPartA partitions_p2_p3 = Some {| Path := "/dev/mmcblk0p2" |}
         /\ rootfsPartB partitions_p2_p3 = Some other)
        \/ (rootfsPartA partitions_p2_p3 = Some other
            /\ rootfsPartB partitions_p2_p3 = Some {| Path := "/dev/mmcblk0p2" |}))
    /\ forall sys' (env' : MapEnv),
         GetInactive sys' env'
           (GetInactive root_on_p3 env_boot_p3 partitions_p2_p3).2
         = (Ok {| Path := "/dev/mmcblk0p2" |},
            (GetInactive root_on_p3 env_boot_p3 partitions_p2_p3).2).
Proof.
  apply (GetInactive_is_the_other root_on_p3 env_boot_p3 partitions_p2_p3
           (GetInactive root_on_p3 env_boot_p3 partitions_p2_p3).2
           {| Path := "/dev/mmcblk0p2" |}).
  - reflexivity.
  - vm_compute. reflexivity.
Defined.

Lemma InstallUpdate_witness :
  InstallUpdate (fun (_ : partition) (_ : string) => None)
    root_on_p3 env_boot_p3 partitions_p2_p3 (Some "image") (-1)
  = (Some (New "Have invalid update. Aborting."), partitions_p2_p3).
Proof.
  apply (proj1 (InstallUpdate_target (fun (_ : partition) (_ : string) => None)
                  root_on_p3 env_boot_p3 partitions_p2_p3 (Some "image") (-1))).
  right. lia.
Defined.

Lemma enable_then_has_update_witness :
  HasUpdate (EnableUpdatedPartition root_on_p3 env_boot_p3 partitions_p2_p3).1.2
  = (true, None).
Proof.
  refine (proj1 (enable_then_has_update root_on_p3 env_boot_p3
                   (EnableUpdatedPartition root_on_p3 env_boot_p3 partitions_p2_p3).1.2
                   partitions_p2_p3
                   (EnableUpdatedPartition root_on_p3 env_boot_p3 partitions_p2_p3).2
                   (MapEnv_reads_back env_boot_p3 eq_refl) _)).
  vm_compute. reflexivity.
Defined.

Lemma commit_then_nothing_witness :
  HasUpdate env_upgrade_pending = (true, None)
  /\ HasUpdate (CommitUpdate env_upgrade_pending).2 = (false, None)
  /\ CommitUpdate (CommitUpdate env_upgrade_pending).2
     = (Some errorNoUpgradeMounted, (CommitUpdate env_upgrade_pending).2).
Proof.
  apply (commit_then_nothing_to_commit env_upgrade_pending
           (CommitUpdate env_upgrade_pending).2
           (MapEnv_reads_back env_upgrade_pending eq_refl)).
  vm_compute. reflexivity.
Defined.

Lemma swap_then_nothing_witness :
  HasUpdate (SwapPartitions root_on_p3 env_upgrade_pending partitions_p2_p3).1.2
  = (false, None).
Proof.
  refine (proj1 (swap_then_nothing_to_commit root_on_p3 env_upgrade_pending
                   (SwapPartitions root_on_p3 env_upgrade_pending partitions_p2_p3).1.2
                   partitions_p2_p3
                   (SwapPartitions root_on_p3 env_upgrade_pending partitions_p2_p3).2
                   (MapEnv_reads_back env_upgrade_pending eq_refl) _)).
  vm_compute. reflexivity.
Defined.

End PartitionFacts.

(** ** The progress writer *)

Module ProgressFacts.
Import Progress.
Local Open Scope Z_scope.

Lemma WriteAll_spec {A : Type} (chunks : list (list A)) : forall p,
  WriteAll p chunks
  = (map (fun data => Z.of_nat (length data)) chunks,
     match bar p with
     | None => p
     | Some ticks =>
         {| bar := Some (ticks ++ map (fun data => Z.of_nat (length data)) chunks) |}
     end).
Proof.
  induction chunks as [|data chunks IH]; intros [[ticks|]]; cbn [WriteAll Write bar].
  - rewrite app_nil_r. reflexivity.
  - reflexivity.
  - rewrite IH. cbn [bar map]. rewrite <- app_assoc. reflexivity.
  - rewrite IH. reflexivity.
Qed.

Lemma sum_lengths {A : Type} (chunks : list (list A)) :
  fold_right Z.add 0 (map (fun data => Z.of_nat (length data)) chunks)
  = Z.of_nat (length (concat chunks)).
Proof.
  induction chunks as [|data chunks IH]; [reflexivity|].
  cbn [map fold_right concat]. rewrite IH, length_app. lia.
Qed.

(** X27: the progress writer counts every byte once.  Writing a sequence
    of chunks reports the length of each chunk, the bar (when there is
    one) receives one tick per write on top of those it had, and the
    ticks of these writes add up to the number of bytes written; without
    a bar the writer is unchanged. *)
Theorem progress_counts_every_byte {A : Type} (p : ProgressWriter)
    (chunks : list (list A)) :
  let '(reported, p') := WriteAll p chunks in
  reported = map (fun data => Z.of_nat (length data)) chunks
  /\ fold_right Z.add 0 reported = Z.of_nat (length (concat chunks))
  /\ match bar p with
     | None => p' = p
     | Some ticks => bar p' = Some (ticks ++ reported)
     end.
Proof.
  rewrite WriteAll_spec. split; [reflexivity|]. split; [apply sum_lengths|].
  destruct (bar p); reflexivity.
Qed.

End ProgressFacts.
